(** * Browser visualisations: particle network (js/net.js) and colour wave
    (molecular viewer script)

    JavaScript numbers are modelled as exact rationals [Q]; binary64
    rounding is outside the model.  A computation whose JavaScript result
    is not a finite number (NaN or an infinity) is modelled by [None] in
    [option Q]. *)

From Stdlib Require Import QArith Qround Lqa ZArith Lia Bool String.
From stdpp Require Import base list.

Local Open Scope Q_scope.

(** ** JavaScript arithmetic on finite numbers *)
Module JS.

(** [a < b], [a <= b], [a > b], [a >= b] as the boolean tests of the source. *)
Definition ltb (a b : Q) : bool := negb (Qle_bool b a).
Definition leb (a b : Q) : bool := Qle_bool a b.
Definition gtb (a b : Q) : bool := ltb b a.
Definition geb (a b : Q) : bool := leb b a.

(** Rounding toward zero, as the quotient inside JavaScript's [%]. *)
Definition trunc (a : Q) : Z := Z.quot (Qnum a) (Zpos (Qden a)).

(** [a / b]: not a finite number when the divisor is zero. *)
Definition div (a b : Q) : option Q :=
  if Qeq_bool b 0 then None else Some (a / b).

(** [a % b]: the remainder has the sign of the dividend; NaN when [b] is zero. *)
Definition rem (a b : Q) : option Q :=
  if Qeq_bool b 0 then None else Some (a - b * inject_Z (trunc (a / b))).

End JS.

(** ** js/net.js: the particle network *)

Record Canvas := { width : Q; height : Q }.

(** The rectangle returned by [title.getBoundingClientRect()]. *)
Record DOMRect := { rect_left : Q; rect_top : Q; rect_width : Q; rect_height : Q }.

Module Particle.

Record t := {
  x : Q;
  y : Q;
  radius : Q;
  color : string;
  baseX : Q;
  baseY : Q;
  directionX : Q;
  directionY : Q;
  collision : bool
}.

Definition set_position (p : t) (x' y' : Q) : t :=
  {| x := x'; y := y'; radius := radius p; color := color p;
     baseX := baseX p; baseY := baseY p;
     directionX := directionX p; directionY := directionY p;
     collision := collision p |}.

Definition set_directionX (p : t) (d : Q) : t :=
  {| x := x p; y := y p; radius := radius p; color := color p;
     baseX := baseX p; baseY := baseY p;
     directionX := d; directionY := directionY p;
     collision := collision p |}.

Definition set_directionY (p : t) (d : Q) : t :=
  {| x := x p; y := y p; radius := radius p; color := color p;
     baseX := baseX p; baseY := baseY p;
     directionX := directionX p; directionY := d;
     collision := collision p |}.

Definition set_collision (p : t) (c : bool) : t :=
  {| x := x p; y := y p; radius := radius p; color := color p;
     baseX := baseX p; baseY := baseY p;
     directionX := directionX p; directionY := directionY p;
     collision := c |}.

(** [new Particle(x, y, radius, color)], the two [Math.random()] draws given
    as [u] and [v] in [0,1). *)
Definition new (x0 y0 r : Q) (c : string) (u v : Q) : t :=
  {| x := x0; y := y0; radius := r; color := c; baseX := x0; baseY := y0;
     directionX := u * 4 - 2; directionY := v * 4 - 2; collision := false |}.

Section Update.
Variable canvas : Canvas.
Variable titleBox : DOMRect.

(** [this.x += this.directionX; this.y += this.directionY;] *)
Definition move (p : t) : t :=
  set_position p (x p + directionX p) (y p + directionY p).

(** The two wall tests, on the position already moved. *)
Definition wall_bounce (p : t) : t :=
  let p1 :=
    if JS.geb (x p + radius p + directionX p) (width canvas)
       || JS.leb (x p - radius p + directionX p) 0
    then set_directionX p (- directionX p) else p in
  if JS.geb (y p1 + radius p1 + directionY p1) (height canvas)
     || JS.leb (y p1 - radius p1 + directionY p1) 0
  then set_directionY p1 (- directionY p1) else p1.

(** The overlap test with the title's rectangle. *)
Definition colliding (p : t) : bool :=
  JS.gtb (x p + radius p) (rect_left titleBox)
  && JS.ltb (x p - radius p) (rect_left titleBox + rect_width titleBox)
  && JS.gtb (y p + radius p) (rect_top titleBox)
  && JS.ltb (y p - radius p) (rect_top titleBox + rect_height titleBox).

Definition detect_collision (p : t) : t :=
  if colliding p then set_collision p true else set_collision p false.

(** The four margin tests of the [if / else if] chain. *)
Definition near_left (p : t) : bool :=
  JS.ltb (x p + radius p) (rect_left titleBox + 10).
Definition near_right (p : t) : bool :=
  JS.gtb (x p - radius p) (rect_left titleBox + rect_width titleBox - 10).
Definition near_top (p : t) : bool :=
  JS.ltb (y p + radius p) (rect_top titleBox + 10).
Definition near_bottom (p : t) : bool :=
  JS.gtb (y p - radius p) (rect_top titleBox + rect_height titleBox - 10).

Definition obstacle_bounce (p : t) : t :=
  if Bool.eqb (collision p) true && near_left p
  then set_directionX p (- directionX p)
  else if Bool.eqb (collision p) true && near_right p
  then set_directionX p (- directionX p)
  else if Bool.eqb (collision p) true && near_top p
  then set_directionY p (- directionY p)
  else if Bool.eqb (collision p) true && near_bottom p
  then set_directionY p (- directionY p)
  else p.

(** [update()] *)
Definition update (p : t) : t :=
  obstacle_bounce (detect_collision (wall_bounce (move p))).

(** [n] successive ticks of one particle. *)
Fixpoint ticks (n : nat) (p : t) : t :=
  match n with
  | O => p
  | S k => ticks k (update p)
  end.
End Update.

(** What the step keeps true when the title's rectangle lies at least one
    radius [r] inside the canvas: a particle heading right is not beyond the
    right wall, one heading left is not beyond the left wall, and it is never
    further out than one step. *)
Definition inside (canvas : Canvas) (r : Q) (p : t) : Prop :=
  radius p == r
  /\ (- r <= directionX p <= r) /\ (- r <= directionY p <= r)
  /\ (0 <= directionX p -> - directionX p <= x p <= width canvas)
  /\ (directionX p <= 0 -> 0 <= x p <= width canvas - directionX p)
  /\ (0 <= directionY p -> - directionY p <= y p <= height canvas)
  /\ (directionY p <= 0 -> 0 <= y p <= height canvas - directionY p).

End Particle.

(** *** The frame callback [animate] and what it draws *)
Module Network.
Import Particle.

(** The calls made on the 2D context during one frame. [Stroke] is one
    [beginPath / moveTo / lineTo / stroke] group drawn with the given line
    width and the opacity put in [strokeStyle]. *)
Inductive cmd :=
| ClearRect (x0 y0 w h : Q)
| Arc (cx cy r : Q) (fillStyle : string)
| Stroke (x1 y1 x2 y2 : Q) (lineWidth : Q) (opacity : Q).

(** [draw()] *)
Definition draw (p : t) : cmd := Arc (x p) (y p) (radius p) (color p).

Definition maxDistance : Q := 250.

(** [init()]: thirty particles of radius 2; each takes four [Math.random()]
    draws, for x, y and the two velocity components. *)
Definition init (canvas : Canvas) (draws : list (Q * Q * Q * Q)) : list t :=
  List.map
    (fun d =>
       match d with
       | (rx, ry, u, v) =>
           new (rx * width canvas) (ry * height canvas) 2 "rgb(255, 255, 255)" u v
       end)
    (take 30 draws).

Section Animate.
(** [Math.sqrt], of the host. *)
Variable sqrt : Q -> Q.
Variable canvas : Canvas.
Variable titleBox : DOMRect.

Definition distance (a b : t) : Q :=
  let dx := x a - x b in
  let dy := y a - y b in
  sqrt (dx * dx + dy * dy).

(** The body of the inner loop for the pair [(a, b)]. *)
Definition connect (a b : t) : list cmd :=
  let d := distance a b in
  let opacity := 1 - d / maxDistance in
  if JS.ltb d maxDistance
  then [Stroke (x a) (y a) (x b) (y b) 2 opacity]
  else [].

(** [for (let j = i; j < particlesArray.length; j++)] *)
Definition inner_loop (i : nat) (ps : list t) : list cmd :=
  flat_map
    (fun j => match ps !! i, ps !! j with
              | Some a, Some b => connect a b
              | _, _ => []
              end)
    (seq i (length ps - i)).

(** One turn of the outer loop: draw, update in place, connect. *)
Definition outer_step (st : list t * list cmd) (i : nat) : list t * list cmd :=
  match fst st !! i with
  | Some p =>
      let ps' := <[i := update canvas titleBox p]> (fst st) in
      (ps', snd st ++ draw p :: inner_loop i ps')
  | None => st
  end.

(** One frame: the particles after it and the drawing calls, in order. *)
Definition animate (ps : list t) : list t * list cmd :=
  foldl outer_step
    (ps, [ClearRect 0 0 (width canvas) (height canvas)])
    (seq 0 (length ps)).
(** The iteration scheme read off the two loops: particle [a] is drawn as it
    was, updated, and then paired with itself and with every later particle,
    those not yet updated in this frame. *)
Fixpoint frame_calls (ps : list t) : list cmd :=
  match ps with
  | [] => []
  | a :: rest =>
      let a' := update canvas titleBox a in
      draw a :: connect a' a' ++ flat_map (connect a') rest ++ frame_calls rest
  end.
End Animate.

End Network.

(** ** The molecular viewer script: the colour wave *)
Module ColorWave.

Record RGB := { r : Q; g : Q; b : Q }.
Record Vector3 := { vx : Q; vy : Q; vz : Q }.

(** A colour attribute: its values and the flag read by the renderer. *)
Record ColorAttribute := { array : list RGB; needsUpdate : bool }.

(** [geometry.attributes]: either attribute may be undefined. *)
Record BufferGeometry := {
  position : option (list Vector3);
  color : option ColorAttribute
}.

(** An entry of [atomMeshes]; its [mesh] field is not read by the update. *)
Record Item := { geometry : BufferGeometry; yMin : Q; yRange : Q }.

Inductive exn := TypeError (msg : string).

Definition rotationSpeed : Q := 1 # 10.
Definition colorWaveSpeed : Q := 1 # 2.
Definition colorWaveFrequency : Q := 1 # 10.

(** [(yRange > 0) ? (y - yMin) / yRange : 0.5] *)
Definition normalizedY (ymin yrange y0 : Q) : option Q :=
  if JS.gtb yrange 0 then JS.div (y0 - ymin) yrange else Some (1 # 2).

(** [(normalizedY * frequency + time * speed) % 1.0]; a NaN stays a NaN. *)
Definition hue_with (frequency speed : Q) (h : option Q) (time : Q) : option Q :=
  match h with
  | Some n => JS.rem (n * frequency + time * speed) 1
  | None => None
  end.

Definition hue : option Q -> Q -> option Q :=
  hue_with colorWaveFrequency colorWaveSpeed.

(** The hue as the specification words it: the fractional part, in [0,1). *)
Definition spec_hue (F S h t : Q) : Q :=
  (h * F + t * S) - inject_Z (Qfloor (h * F + t * S)).

Definition missing_color_warning : string :=
  "Geometry missing color attribute for dynamic coloring.".

Section Update.
(** [color.setHSL(h, s, l)] of the rendering library, read back as
    [(color.r, color.g, color.b)]. *)
Variable setHSL : option Q -> Q -> Q -> RGB.

(** The colour computed for a vertex at height [y0]. *)
Definition vertex_color (time ymin yrange y0 : Q) : RGB :=
  setHSL (hue (normalizedY ymin yrange y0) time) 1 (1 # 2).

(** The body of [for (let i = 0; i < count; i++)], then the loop: [setXYZ]
    on a typed array ignores an index out of range. *)
Definition color_step (time ymin yrange : Q) (positions : list Vector3)
    (cs : list RGB) (i : nat) : list RGB :=
  match positions !! i with
  | Some pos => <[i := vertex_color time ymin yrange (vy pos)]> cs
  | None => cs
  end.

Definition color_loop (time ymin yrange : Q) (positions : list Vector3)
    (colors : list RGB) : list RGB :=
  foldl (color_step time ymin yrange positions) colors (seq 0 (length positions)).

(** The callback of [atomMeshes.forEach]: the item after the call, what was
    logged, and the exception thrown, if any. *)
Definition update_item (time : Q) (item : Item)
    : Item * list string * option exn :=
  match color (geometry item) with
  | None => (item, [missing_color_warning], None)
  | Some ca =>
      match position (geometry item) with
      | None => (item, [], Some (TypeError "positions is undefined"))
      | Some ps =>
          let cs := color_loop time (yMin item) (yRange item) ps (array ca) in
          ({| geometry := {| position := Some ps;
                             color := Some {| array := cs; needsUpdate := true |} |};
              yMin := yMin item; yRange := yRange item |}, [], None)
      end
  end.

(** [updateColors(time)]: an exception ends the traversal. *)
Fixpoint updateColors (time : Q) (atomMeshes : list Item)
    : list Item * list string * option exn :=
  match atomMeshes with
  | [] => ([], [], None)
  | item :: rest =>
      match update_item time item with
      | (item', logged, Some e) => (item' :: rest, logged, Some e)
      | (item', logged, None) =>
          match updateColors time rest with
          | (rest', logged', e) => (item' :: rest', logged ++ logged', e)
          end
      end
  end.
(** What the frame callback [animate] changes: the rotation of the molecule
    group and, through [updateColors], the colour attributes. The camera
    controls and the renderer are outside the model. *)
Record Viewer := { rotation_y : Q; atomMeshes : list Item }.

Definition animate (deltaTime elapsedTime : Q) (v : Viewer)
    : Viewer * list string * option exn :=
  let rotated := rotation_y v + rotationSpeed * deltaTime in
  match updateColors elapsedTime (atomMeshes v) with
  | (meshes, logged, e) =>
      ({| rotation_y := rotated; atomMeshes := meshes |}, logged, e)
  end.
End Update.

(** A textbook HSL to RGB conversion, one possible behaviour of [setHSL];
    a NaN hue is read as 0. *)
Definition hue2rgb (p q t : Q) : Q :=
  let t1 := if JS.ltb t 0 then t + 1 else t in
  let t2 := if JS.gtb t1 1 then t1 - 1 else t1 in
  if JS.ltb t2 (1 # 6) then p + (q - p) * 6 * t2
  else if JS.ltb t2 (1 # 2) then q
  else if JS.ltb t2 (2 # 3) then p + (q - p) * 6 * ((2 # 3) - t2)
  else p.

Definition hsl_to_rgb (h : option Q) (s l : Q) : RGB :=
  let h0 := match h with Some q => q | None => 0 end in
  let q := if JS.leb l (1 # 2) then l * (1 + s) else l + s - l * s in
  let p := 2 * l - q in
  {| r := hue2rgb p q (h0 + (1 # 3));
     g := hue2rgb p q h0;
     b := hue2rgb p q (h0 - (1 # 3)) |}.

End ColorWave.

(** ** Concrete scenes used as test inputs *)
Module Scenes.
Import Particle.

Definition canvas100 : Canvas := {| width := 100; height := 100 |}.

(** A title well inside the canvas. *)
Definition title_centre : DOMRect :=
  {| rect_left := 40; rect_top := 40; rect_width := 20; rect_height := 10 |}.

(** A block-level title: it spans the whole width of the canvas. *)
Definition title_banner : DOMRect :=
  {| rect_left := 0; rect_top := 40; rect_width := 100; rect_height := 20 |}.

Definition white : string := "rgb(255, 255, 255)".

Definition particle (x0 y0 r dx dy : Q) : t :=
  {| x := x0; y := y0; radius := r; color := white; baseX := x0; baseY := y0;
     directionX := dx; directionY := dy; collision := false |}.

(** Position (5,5), radius 2, velocity (-1,-1). *)
Definition corner_particle : t := particle 5 5 2 (-1) (-1).

(** Near the right wall, inside the banner, moving right. *)
Definition banner_particle : t := particle (199 # 2) 50 2 1 0.

(** Inside the top-left corner of [title_centre], in both its left and its
    top margin. *)
Definition margin_particle : t := particle 43 42 2 1 1.

(** A coarse stand-in for [Math.sqrt]: the integer square root of the floor. *)
Definition isqrt (q : Q) : Q := inject_Z (Z.sqrt (Qfloor q)).

End Scenes.

(** Meshes used as test inputs for the colour wave. *)
Module Molecules.
Import ColorWave.

Definition black : RGB := {| r := 0; g := 0; b := 0 |}.

Definition atoms : list Vector3 :=
  [ {| vx := 0; vy := 0; vz := 0 |};
    {| vx := 1; vy := 5; vz := 0 |};
    {| vx := 0; vy := 10; vz := 2 |} ].

(** Three atoms between y = 0 and y = 10, with a colour attribute. *)
Definition molecule : Item :=
  {| geometry :=
       {| position := Some atoms;
          color := Some {| array := [black; black; black]; needsUpdate := false |} |};
     yMin := 0; yRange := 10 |}.

(** All atoms at the same height: the extent is degenerate. *)
Definition flat_molecule : Item :=
  {| geometry :=
       {| position := Some [ {| vx := 0; vy := 3; vz := 0 |};
                             {| vx := 1; vy := 3; vz := 1 |} ];
          color := Some {| array := [black; black]; needsUpdate := false |} |};
     yMin := 3; yRange := 0 |}.

(** A mesh whose geometry has no colour attribute (and no positions). *)
Definition bare_mesh : Item :=
  {| geometry := {| position := None; color := None |}; yMin := 0; yRange := 0 |}.

(** A mesh with positions but no colour attribute. *)
Definition uncoloured_molecule : Item :=
  {| geometry := {| position := Some atoms; color := None |};
     yMin := 0; yRange := 10 |}.

End Molecules.

(** ** Further parts of the scripts *)

(** *** js/net.js: successive frames *)
Module NetworkRun.
Import Particle Network.

Section Frames.
Variable sqrt : Q -> Q.
Variable canvas : Canvas.
Variable titleBox : DOMRect.

(** [animate] ends with [requestAnimationFrame(animate)]: [n] frames in a
    row, with all the drawing calls made. *)
Fixpoint frames (n : nat) (ps : list t) : list t * list cmd :=
  match n with
  | O => (ps, [])
  | S k =>
      let first := animate sqrt canvas titleBox ps in
      let others := frames k (fst first) in
      (fst others, snd first ++ snd others)
  end.
End Frames.

Definition is_arc (c : cmd) : bool :=
  match c with Arc _ _ _ _ => true | _ => false end.

Definition is_stroke (c : cmd) : bool :=
  match c with Stroke _ _ _ _ _ _ => true | _ => false end.

(** The bounded domain with a slack [s]: as [inside], for a title that may
    come as close as [r - s] to the walls. *)
Definition inside_slack (canvas : Canvas) (r s : Q) (p : t) : Prop :=
  radius p == r
  /\ (- r <= directionX p <= r) /\ (- r <= directionY p <= r)
  /\ (0 <= directionX p -> - directionX p - s <= x p <= width canvas + s)
  /\ (directionX p <= 0 -> - s <= x p <= width canvas - directionX p + s)
  /\ (0 <= directionY p -> - directionY p - s <= y p <= height canvas + s)
  /\ (directionY p <= 0 -> - s <= y p <= height canvas - directionY p + s).

End NetworkRun.

(** *** The molecular viewer: loading, progress and successive frames *)
Module ViewerRun.
Import ColorWave.

(** What the [info] element shows. A percentage that is not a finite number
    is [None]. *)
Inductive info_text :=
| Loading (percent : option Z)
| Loaded (atoms : nat)
| LoadError.

(** [Math.round]: the nearest integer, halves upward. *)
Definition round (q : Q) : Z := Qfloor (q + (1 # 2)).

(** [xhr.loaded / xhr.total * 100] *)
Definition percentComplete (loaded total : Q) : option Q :=
  match JS.div loaded total with
  | Some q => Some (q * 100)
  | None => None
  end.

(** The progress callback of [loader.load]. *)
Definition on_progress (lengthComputable : bool) (loaded total : Q)
    (info : info_text) : info_text :=
  if lengthComputable
  then Loading (match percentComplete loaded total with
                | Some q => Some (round q)
                | None => None
                end)
  else info.

(** The part of the success callback that the colour wave depends on: the
    atom count is read from the position attribute first (a [TypeError] when
    it is undefined), then the entry with the extent of the bounding box
    ([bbox.min.y], [bbox.max.y], computed by the rendering library) is pushed
    on [atomMeshes]. *)
Definition on_load (geometryAtoms : BufferGeometry) (bbox_min_y bbox_max_y : Q)
    (v : Viewer) (info : info_text) : Viewer * info_text * option exn :=
  match position geometryAtoms with
  | None => (v, info, Some (TypeError "position attribute is undefined"))
  | Some ps =>
      let yMin0 := bbox_min_y in
      let yMax0 := bbox_max_y in
      let yRange0 := yMax0 - yMin0 in
      ({| rotation_y := rotation_y v;
          atomMeshes := atomMeshes v ++
            [{| geometry := geometryAtoms; yMin := yMin0; yRange := yRange0 |}] |},
       Loaded (length ps), None)
  end.

(** The error callback. *)
Definition on_error (info : info_text) : info_text := LoadError.

Section Frames.
Variable setHSL : option Q -> Q -> Q -> RGB.

(** Successive frames, one per clock reading [(deltaTime, elapsedTime)]. The
    next frame is requested before anything else, so a frame that throws
    does not stop the following ones. *)
Fixpoint run_frames (clock : list (Q * Q)) (v : Viewer)
    : Viewer * list string * list exn :=
  match clock with
  | [] => (v, [], [])
  | (deltaTime, elapsedTime) :: rest =>
      match animate setHSL deltaTime elapsedTime v with
      | (v', logged, e) =>
          match run_frames rest v' with
          | (v'', logged', es) =>
              (v'', logged ++ logged',
               match e with Some ex => ex :: es | None => es end)
          end
      end
  end.
End Frames.

End ViewerRun.

(** *** The instanced viewer: one sphere per atom *)
Module InstancedViewer.
Import ColorWave.

(** The per-instance data of the [InstancedMesh]: the translation put in
    each instance matrix (the rest of the matrix stays the identity) and the
    instance colours; a colour read past the end of the atom colours is not
    a number, [None]. *)
Record InstancedMesh := {
  instanceMatrix : list Vector3;
  instanceColor : list (option RGB)
}.

Definition origin : Vector3 := {| vx := 0; vy := 0; vz := 0 |}.

(** [new THREE.InstancedMesh(.., .., atomCount)] with a zeroed colour array. *)
Definition new_mesh (atomCount : nat) : InstancedMesh :=
  {| instanceMatrix := replicate atomCount origin;
     instanceColor := replicate atomCount (Some {| r := 0; g := 0; b := 0 |}) |}.

(** The body of [for (let i = 0; i < atomCount; i++)]. *)
Definition set_instance (atomPositions : list Vector3) (atomColors : list RGB)
    (m : InstancedMesh) (i : nat) : InstancedMesh :=
  match atomPositions !! i with
  | Some tempPosition =>
      {| instanceMatrix := <[i := tempPosition]> (instanceMatrix m);
         instanceColor := <[i := atomColors !! i]> (instanceColor m) |}
  | None => m
  end.

Definition fill_instances (atomPositions : list Vector3) (atomColors : list RGB)
    : InstancedMesh :=
  let atomCount := length atomPositions in
  foldl (set_instance atomPositions atomColors) (new_mesh atomCount)
    (seq 0 atomCount).

(** [camera.position.z = Math.max(sphere.radius * 2.5, 150)] *)
Definition camera_distance (sphere_radius : Q) : Q :=
  if JS.ltb (sphere_radius * (5 # 2)) 150 then 150 else sphere_radius * (5 # 2).

End InstancedViewer.

(** *** Conditions on inputs and relations between states *)
Module Conditions.
Import ColorWave.

(** The four [Math.random()] draws of a particle all lie in [0,1). *)
Definition unit_draws (d : Q * Q * Q * Q) : Prop :=
  match d with
  | (rx, ry, u, v) => 0 <= rx < 1 /\ 0 <= ry < 1 /\ 0 <= u < 1 /\ 0 <= v < 1
  end.

(** The geometry has a position attribute. *)
Definition has_positions (item : Item) : Prop :=
  position (geometry item) <> None.

(** The update can run on the mesh: it has positions, or it has no colour
    attribute and is skipped. *)
Definition updatable (item : Item) : Prop :=
  position (geometry item) <> None \/ color (geometry item) = None.

(** Two colour attributes of the same size, both present or both absent. *)
Definition same_size (c c' : option ColorAttribute) : Prop :=
  match c, c' with
  | Some ca, Some ca' => length (array ca) = length (array ca')
  | None, None => True
  | _, _ => False
  end.

(** The same mesh up to the values of its colours and its dirty flag. *)
Definition same_shape (item item' : Item) : Prop :=
  position (geometry item') = position (geometry item)
  /\ yMin item' = yMin item
  /\ yRange item' = yRange item
  /\ same_size (color (geometry item)) (color (geometry item')).

(** Every colour attribute present is flagged for upload. *)
Definition flagged (item : Item) : Prop :=
  match color (geometry item) with
  | Some ca => needsUpdate ca = true
  | None => True
  end.

(** The meshes without colour attribute. *)
Definition uncoloured (meshes : list Item) : list Item :=
  List.filter
    (fun item => match color (geometry item) with None => true | Some _ => false end)
    meshes.

(** The sum of the frame deltas of a clock. *)
Definition elapsed (clock : list (Q * Q)) : Q :=
  foldr (fun reading acc => fst reading + acc) 0 clock.

(** The box bounds every vertex along y. *)
Definition bounds_y (lo hi : Q) (ps : list Vector3) : Prop :=
  Forall (fun pos => lo <= vy pos <= hi) ps.

End Conditions.

(** *** The claims' words in plain arithmetic *)
Module Geometry.
Import Particle.

(** The position of a particle once its velocity has been added. *)
Definition moved_x (p : t) : Q := x p + directionX p.
Definition moved_y (p : t) : Q := y p + directionY p.

(** The moved particle, as a square of half-side [radius], overlaps the
    rectangle. *)
Definition overlaps (rect : DOMRect) (p : t) : Prop :=
  rect_left rect < moved_x p + radius p
  /\ moved_x p - radius p < rect_left rect + rect_width rect
  /\ rect_top rect < moved_y p + radius p
  /\ moved_y p - radius p < rect_top rect + rect_height rect.

(** The moved particle is within 10 px of an edge of the rectangle. *)
Definition within_left (rect : DOMRect) (p : t) : Prop :=
  moved_x p + radius p < rect_left rect + 10.
Definition within_right (rect : DOMRect) (p : t) : Prop :=
  rect_left rect + rect_width rect - 10 < moved_x p - radius p.
Definition within_top (rect : DOMRect) (p : t) : Prop :=
  moved_y p + radius p < rect_top rect + 10.
Definition within_bottom (rect : DOMRect) (p : t) : Prop :=
  rect_top rect + rect_height rect - 10 < moved_y p - radius p.

(** One more step would take an edge of the moved particle to a wall. *)
Definition wall_x_fires (canvas : Canvas) (p : t) : Prop :=
  width canvas <= moved_x p + radius p + directionX p
  \/ moved_x p - radius p + directionX p <= 0.
Definition wall_y_fires (canvas : Canvas) (p : t) : Prop :=
  height canvas <= moved_y p + radius p + directionY p
  \/ moved_y p - radius p + directionY p <= 0.

(** [(wx, wy)] is the velocity the wall tests leave: a component is the
    opposite of the one before the call when its wall test fires, and the
    same otherwise. *)
Definition after_walls (canvas : Canvas) (p : t) (wx wy : Q) : Prop :=
  (wall_x_fires canvas p -> wx = - directionX p)
  /\ (~ wall_x_fires canvas p -> wx = directionX p)
  /\ (wall_y_fires canvas p -> wy = - directionY p)
  /\ (~ wall_y_fires canvas p -> wy = directionY p).






End Geometry.

(** * Facts *)

(** ** Comparisons and remainder *)
Module JSFacts.

Lemma ltb_lt a b : JS.ltb a b = true <-> a < b.
Proof.
  unfold JS.ltb. rewrite negb_true_iff, <- not_true_iff_false, Qle_bool_iff.
  split; [apply Qnot_le_lt | apply Qlt_not_le].
Qed.

Lemma ltb_ge a b : JS.ltb a b = false <-> b <= a.
Proof. unfold JS.ltb. rewrite negb_false_iff. apply Qle_bool_iff. Qed.

Lemma leb_le a b : JS.leb a b = true <-> a <= b.
Proof. apply Qle_bool_iff. Qed.

Lemma leb_gt a b : JS.leb a b = false <-> b < a.
Proof.
  unfold JS.leb. rewrite <- not_true_iff_false, Qle_bool_iff.
  split; [apply Qnot_le_lt | apply Qlt_not_le].
Qed.

Lemma trunc_nonneg a : 0 <= a -> JS.trunc a = Qfloor a.
Proof.
  destruct a as [n d]. unfold Qle, JS.trunc, Qfloor. simpl. intros H.
  apply Z.quot_div_nonneg; lia.
Qed.


End JSFacts.

(** Turns every boolean comparison in sight into its rational statement. *)
Ltac js_cmp :=
  repeat match goal with
  | H : JS.ltb _ _ = true |- _ => apply JSFacts.ltb_lt in H
  | H : JS.ltb _ _ = false |- _ => apply JSFacts.ltb_ge in H
  | H : JS.leb _ _ = true |- _ => apply JSFacts.leb_le in H
  | H : JS.leb _ _ = false |- _ => apply JSFacts.leb_gt in H
  | H : JS.gtb _ _ = _ |- _ => unfold JS.gtb in H
  | H : JS.geb _ _ = _ |- _ => unfold JS.geb in H
  | H : _ && _ = true |- _ => apply andb_true_iff in H; destruct H
  | H : _ || _ = false |- _ => apply orb_false_iff in H; destruct H
  end.


(** Closed comparisons of rationals, by computation. *)
Ltac q_closed :=
  repeat split;
  first
    [ reflexivity
    | vm_compute; reflexivity
    | vm_compute; discriminate
    | let H := fresh in intro H; vm_compute in H; first [discriminate H | apply H; reflexivity] ].

(** ** The particle step *)
Module ParticleFacts.
Import Particle.

Lemma Qopp_opp_eq (q : Q) : - - q = q.
Proof. destruct q as [n d]. unfold Qopp. simpl. f_equal. lia. Qed.

Section Step.
Variable canvas : Canvas.
Variable titleBox : DOMRect.

Lemma wall_bounce_position p :
  x (wall_bounce canvas p) = x p /\ y (wall_bounce canvas p) = y p
  /\ radius (wall_bounce canvas p) = radius p.
Proof.
  unfold wall_bounce.
  destruct (JS.geb (x p + radius p + directionX p) (width canvas)
            || JS.leb (x p - radius p + directionX p) 0); simpl;
  match goal with |- context [if ?c then _ else _] => destruct c end;
  simpl; auto.
Qed.

Lemma detect_collision_fields p :
  x (detect_collision titleBox p) = x p /\ y (detect_collision titleBox p) = y p
  /\ radius (detect_collision titleBox p) = radius p
  /\ directionX (detect_collision titleBox p) = directionX p
  /\ directionY (detect_collision titleBox p) = directionY p
  /\ collision (detect_collision titleBox p) = colliding titleBox p.
Proof. unfold detect_collision. destruct (colliding titleBox p); simpl; auto 10. Qed.

Lemma obstacle_bounce_position p :
  x (obstacle_bounce titleBox p) = x p /\ y (obstacle_bounce titleBox p) = y p
  /\ radius (obstacle_bounce titleBox p) = radius p
  /\ collision (obstacle_bounce titleBox p) = collision p.
Proof.
  unfold obstacle_bounce.
  repeat match goal with |- context [if ?c then _ else _] => destruct c end;
  simpl; auto.
Qed.

Lemma update_x p : x (update canvas titleBox p) = x p + directionX p.
Proof.
  unfold update.
  destruct (obstacle_bounce_position (detect_collision titleBox (wall_bounce canvas (move p)))) as [-> _].
  destruct (detect_collision_fields (wall_bounce canvas (move p))) as [-> _].
  destruct (wall_bounce_position (move p)) as [-> _]. reflexivity.
Qed.

Lemma update_y p : y (update canvas titleBox p) = y p + directionY p.
Proof.
  unfold update.
  destruct (obstacle_bounce_position (detect_collision titleBox (wall_bounce canvas (move p)))) as (_ & -> & _).
  destruct (detect_collision_fields (wall_bounce canvas (move p))) as (_ & -> & _).
  destruct (wall_bounce_position (move p)) as (_ & -> & _). reflexivity.
Qed.

Lemma update_radius p : radius (update canvas titleBox p) = radius p.
Proof.
  unfold update.
  destruct (obstacle_bounce_position (detect_collision titleBox (wall_bounce canvas (move p)))) as (_ & _ & -> & _).
  destruct (detect_collision_fields (wall_bounce canvas (move p))) as (_ & _ & -> & _).
  destruct (wall_bounce_position (move p)) as (_ & _ & -> ). reflexivity.
Qed.

Lemma update_collision p :
  collision (update canvas titleBox p) = colliding titleBox (move p).
Proof.
  unfold update.
  destruct (obstacle_bounce_position (detect_collision titleBox (wall_bounce canvas (move p)))) as (_ & _ & _ & ->).
  destruct (detect_collision_fields (wall_bounce canvas (move p))) as (_ & _ & _ & _ & _ & ->).
  unfold colliding.
  destruct (wall_bounce_position (move p)) as (-> & -> & ->). reflexivity.
Qed.

Lemma wall_bounce_direction p :
  (directionX (wall_bounce canvas p) = directionX p
   \/ directionX (wall_bounce canvas p) = - directionX p)
  /\ (directionY (wall_bounce canvas p) = directionY p
      \/ directionY (wall_bounce canvas p) = - directionY p).
Proof.
  unfold wall_bounce.
  destruct (JS.geb (x p + radius p + directionX p) (width canvas)
            || JS.leb (x p - radius p + directionX p) 0);
  match goal with |- context [if ?c then _ else _] => destruct c end;
  cbn [directionX directionY set_directionX set_directionY]; auto.
Qed.

Lemma obstacle_bounce_direction p :
  (directionX (obstacle_bounce titleBox p) = directionX p
   \/ directionX (obstacle_bounce titleBox p) = - directionX p)
  /\ (directionY (obstacle_bounce titleBox p) = directionY p
      \/ directionY (obstacle_bounce titleBox p) = - directionY p).
Proof.
  unfold obstacle_bounce.
  repeat match goal with |- context [if ?c then _ else _] => destruct c end;
  cbn [directionX directionY set_directionX set_directionY]; auto.
Qed.

(** Each component of the velocity keeps its magnitude: it is kept or negated. *)
Lemma update_direction p :
  (directionX (update canvas titleBox p) = directionX p
   \/ directionX (update canvas titleBox p) = - directionX p)
  /\ (directionY (update canvas titleBox p) = directionY p
      \/ directionY (update canvas titleBox p) = - directionY p).
Proof.
  unfold update.
  destruct (obstacle_bounce_direction (detect_collision titleBox (wall_bounce canvas (move p))))
    as [HoX HoY].
  destruct (detect_collision_fields (wall_bounce canvas (move p)))
    as (_ & _ & _ & EdX & EdY & _).
  rewrite EdX in HoX. rewrite EdY in HoY.
  destruct (wall_bounce_direction (move p)) as [HwX HwY].
  change (directionX (move p)) with (directionX p) in HwX.
  change (directionY (move p)) with (directionY p) in HwY.
  split.
  - destruct HoX as [-> | ->], HwX as [-> | ->]; rewrite ?Qopp_opp_eq; auto.
  - destruct HoY as [-> | ->], HwY as [-> | ->]; rewrite ?Qopp_opp_eq; auto.
Qed.

Lemma colliding_wall_bounce p :
  colliding titleBox (wall_bounce canvas p) = colliding titleBox p.
Proof.
  unfold colliding. destruct (wall_bounce_position p) as (-> & -> & ->).
  reflexivity.
Qed.

(** Without overlap the obstacle tests change nothing. *)
Lemma update_no_collision p :
  colliding titleBox (move p) = false ->
  directionX (update canvas titleBox p) = directionX (wall_bounce canvas (move p))
  /\ directionY (update canvas titleBox p) = directionY (wall_bounce canvas (move p)).
Proof.
  intros Hc. unfold update, detect_collision.
  rewrite colliding_wall_bounce, Hc. unfold obstacle_bounce.
  cbn [collision set_collision Bool.eqb andb directionX directionY]. auto.
Qed.

End Step.
End ParticleFacts.

(** ** The claims on [Particle.update] *)
Module ParticleClaims.
Import Particle ParticleFacts Scenes.

(** C10. One call of [update] adds the velocity held before the call to the
    position, and nothing else: the wall tests, the collision flag and the
    obstacle tests all read the position already moved and leave it as it is,
    each velocity component is kept or negated, and so a bounce shows in the
    position only at the following call. *)
Theorem update_moves_by_old_velocity (canvas : Canvas) (titleBox : DOMRect) (p : t) :
  x (update canvas titleBox p) = x p + directionX p
  /\ y (update canvas titleBox p) = y p + directionY p
  /\ update canvas titleBox p
     = obstacle_bounce titleBox (detect_collision titleBox (wall_bounce canvas (move p)))
  /\ (forall q, x (wall_bounce canvas q) = x q /\ y (wall_bounce canvas q) = y q)
  /\ (forall q, x (detect_collision titleBox q) = x q /\ y (detect_collision titleBox q) = y q)
  /\ (forall q, x (obstacle_bounce titleBox q) = x q /\ y (obstacle_bounce titleBox q) = y q)
  /\ (directionX (update canvas titleBox p) = directionX p
      \/ directionX (update canvas titleBox p) = - directionX p)
  /\ (directionY (update canvas titleBox p) = directionY p
      \/ directionY (update canvas titleBox p) = - directionY p)
  /\ x (ticks canvas titleBox 2 p)
     = x p + directionX p + directionX (update canvas titleBox p)
  /\ y (ticks canvas titleBox 2 p)
     = y p + directionY p + directionY (update canvas titleBox p).
Proof.
  split; [apply update_x |]. split; [apply update_y |].
  split; [reflexivity |].
  split; [intros q; destruct (wall_bounce_position canvas q) as (? & ? & _); auto |].
  split; [intros q; destruct (detect_collision_fields titleBox q) as (? & ? & _); auto |].
  split; [intros q; destruct (obstacle_bounce_position titleBox q) as (? & ? & _); auto |].
  destruct (update_direction canvas titleBox p) as [HX HY].
  split; [exact HX |]. split; [exact HY |].
  cbn [ticks]. rewrite !update_x, !update_y. auto.
Qed.

(** C2, as stated, fails: whatever the title's rectangle, the particle at
    (5,5) with velocity (-1,-1) is not at (6,6) with velocity (1,1) after one
    call. *)
Lemma corner_scenario_refuted :
  ~ (exists titleBox : DOMRect,
       x (update canvas100 titleBox corner_particle) == 6
       /\ y (update canvas100 titleBox corner_particle) == 6
       /\ directionX (update canvas100 titleBox corner_particle) == 1
       /\ directionY (update canvas100 titleBox corner_particle) == 1).
Proof.
  intros (tb & Hx & _). rewrite update_x in Hx. vm_compute in Hx. discriminate Hx.
Qed.

(** C2, amended. For the particle at (5,5) with radius 2 and velocity (-1,-1)
    on a 100x100 canvas, one call moves the position to (4,4), whatever the
    title's rectangle; neither wall test fires (4 - 2 - 1 = 1 is above 0), so
    the wall tests leave the velocity (-1,-1); and the velocity is (-1,-1)
    after the call when the moved particle, which spans 2 to 6 on both axes,
    does not overlap the title's rectangle. *)
Theorem corner_scenario (titleBox : DOMRect) :
  x (update canvas100 titleBox corner_particle) == 4
  /\ y (update canvas100 titleBox corner_particle) == 4
  /\ directionX (wall_bounce canvas100 (move corner_particle)) == -1
  /\ directionY (wall_bounce canvas100 (move corner_particle)) == -1
  /\ (6 <= rect_left titleBox
      \/ rect_left titleBox + rect_width titleBox <= 2
      \/ 6 <= rect_top titleBox
      \/ rect_top titleBox + rect_height titleBox <= 2 ->
      directionX (update canvas100 titleBox corner_particle) == -1
      /\ directionY (update canvas100 titleBox corner_particle) == -1).
Proof.
  rewrite update_x, update_y.
  split; [reflexivity |]. split; [reflexivity |].
  split; [reflexivity |]. split; [reflexivity |].
  intros Hout.
  assert (Hc : colliding titleBox (move corner_particle) = false).
  { apply not_true_iff_false. intros Ht. unfold colliding in Ht. js_cmp.
    unfold corner_particle, particle, move in *.
    cbn [x y radius directionX directionY set_position] in *.
    destruct Hout as [H' | [H' | [H' | H']]]; lra. }
  destruct (update_no_collision canvas100 titleBox corner_particle Hc) as [-> ->].
  split; reflexivity.
Qed.

Lemma corner_scenario_witness :
  6 <= rect_left title_centre
  /\ x (update canvas100 title_centre corner_particle) == 4
  /\ y (update canvas100 title_centre corner_particle) == 4
  /\ directionX (update canvas100 title_centre corner_particle) == -1
  /\ directionY (update canvas100 title_centre corner_particle) == -1.
Proof.
  assert (H : 6 <= rect_left title_centre) by (vm_compute; discriminate).
  split; [exact H |].
  destruct (corner_scenario title_centre) as (Hx & Hy & _ & _ & Hd).
  destruct Hd as [HdX HdY]; [left; exact H |].
  auto.
Defined.

(** A second call with [title_centre]: the look-ahead tests fire at (3,3). *)
Example corner_scenario_second_tick :
  x (ticks canvas100 title_centre 2 corner_particle) == 3
  /\ y (ticks canvas100 title_centre 2 corner_particle) == 3
  /\ directionX (ticks canvas100 title_centre 2 corner_particle) == 1
  /\ directionY (ticks canvas100 title_centre 2 corner_particle) == 1.
Proof. q_closed. Qed.

(** *** The bounded domain *)

Section Bounded.
Variable canvas : Canvas.
Variable titleBox : DOMRect.
Variable r : Q.
Hypothesis title_left : r <= rect_left titleBox.
Hypothesis title_right : rect_left titleBox + rect_width titleBox + r <= width canvas.
Hypothesis title_top : r <= rect_top titleBox.
Hypothesis title_bottom : rect_top titleBox + rect_height titleBox + r <= height canvas.

(** Where the horizontal velocity after one call comes from: the particle
    overlaps the title (only then can the obstacle test act), or the wall test
    negated it, or no test fired. *)
Lemma update_directionX_cases p :
  (rect_left titleBox < x p + directionX p + radius p
   /\ x p + directionX p - radius p < rect_left titleBox + rect_width titleBox
   /\ (directionX (update canvas titleBox p) = directionX p
       \/ directionX (update canvas titleBox p) = - directionX p))
  \/ directionX (update canvas titleBox p) = - directionX p
  \/ (directionX (update canvas titleBox p) = directionX p
      /\ x p + directionX p + radius p + directionX p < width canvas
      /\ 0 < x p + directionX p - radius p + directionX p).
Proof.
  destruct (colliding titleBox (move p)) eqn:Ec.
  - left. unfold colliding in Ec. cbn [move x y radius set_position] in Ec.
    js_cmp. split; [assumption |]. split; [assumption |].
    apply (update_direction canvas titleBox p).
  - right. destruct (update_no_collision canvas titleBox p Ec) as [-> _].
    unfold wall_bounce. cbn [move x y radius directionX directionY set_position].
    destruct (JS.geb (x p + directionX p + radius p + directionX p) (width canvas)
              || JS.leb (x p + directionX p - radius p + directionX p) 0) eqn:Ew;
    match goal with |- context [if ?c then _ else _] => destruct c end;
    cbn [directionX set_directionX set_directionY]; auto;
    right; js_cmp; auto.
Qed.

Lemma update_directionY_cases p :
  (rect_top titleBox < y p + directionY p + radius p
   /\ y p + directionY p - radius p < rect_top titleBox + rect_height titleBox
   /\ (directionY (update canvas titleBox p) = directionY p
       \/ directionY (update canvas titleBox p) = - directionY p))
  \/ directionY (update canvas titleBox p) = - directionY p
  \/ (directionY (update canvas titleBox p) = directionY p
      /\ y p + directionY p + radius p + directionY p < height canvas
      /\ 0 < y p + directionY p - radius p + directionY p).
Proof.
  destruct (colliding titleBox (move p)) eqn:Ec.
  - left. unfold colliding in Ec. cbn [move x y radius set_position] in Ec.
    js_cmp. split; [assumption |]. split; [assumption |].
    apply (update_direction canvas titleBox p).
  - right. destruct (update_no_collision canvas titleBox p Ec) as [_ ->].
    unfold wall_bounce. cbn [move x y radius directionX directionY set_position].
    destruct (JS.geb (x p + directionX p + radius p + directionX p) (width canvas)
              || JS.leb (x p + directionX p - radius p + directionX p) 0);
    cbn [move x y radius directionX directionY set_directionX set_position];
    destruct (JS.geb (y p + directionY p + radius p + directionY p) (height canvas)
              || JS.leb (y p + directionY p - radius p + directionY p) 0) eqn:Ew;
    cbn [directionY set_directionX set_directionY]; auto;
    right; js_cmp; auto.
Qed.

Lemma inside_update p : inside canvas r p -> inside canvas r (update canvas titleBox p).
Proof.
  unfold inside. intros (Hr & HdX & HdY & HxR & HxL & HyR & HyL).
  rewrite update_radius, update_x, update_y.
  split; [assumption |].
  destruct (Qlt_le_dec (directionX p) 0) as [Hx | Hx];
    [ specialize (HxL (Qlt_le_weak _ _ Hx)); clear HxR
    | specialize (HxR Hx); clear HxL ];
  (destruct (Qlt_le_dec (directionY p) 0) as [Hy | Hy];
    [ specialize (HyL (Qlt_le_weak _ _ Hy)); clear HyR
    | specialize (HyR Hy); clear HyL ]);
  destruct (update_directionX_cases p) as [(? & ? & [-> | ->]) | [-> | (-> & ? & ?)]];
  destruct (update_directionY_cases p) as [(? & ? & [-> | ->]) | [-> | (-> & ? & ?)]];
  repeat split; intros; lra.
Qed.

Lemma inside_ticks n : forall p, inside canvas r p -> inside canvas r (ticks canvas titleBox n p).
Proof.
  induction n as [| n IH]; intros p Hp; simpl; [exact Hp |].
  apply IH, inside_update, Hp.
Qed.

Lemma inside_bounds p :
  inside canvas r p ->
  (- r <= x p <= width canvas + r) /\ (- r <= y p <= height canvas + r).
Proof.
  unfold inside. intros (Hr & HdX & HdY & HxR & HxL & HyR & HyL).
  destruct (Qlt_le_dec (directionX p) 0) as [Hx | Hx];
  destruct (Qlt_le_dec (directionY p) 0) as [Hy | Hy];
  repeat split; lra.
Qed.

End Bounded.

(** C3, as stated, fails. A particle of radius 2 that starts inside the
    100x100 canvas with velocity (1,0), under a title spanning the width of
    the canvas, is at x = 102.5, beyond 100 + 2, after three calls: the
    obstacle test undoes the bounce of the wall test. *)
Lemma banner_particle_escapes :
  0 <= x banner_particle <= width canvas100
  /\ 0 <= y banner_particle <= height canvas100
  /\ - radius banner_particle <= directionX banner_particle <= radius banner_particle
  /\ x (ticks canvas100 title_banner 3 banner_particle) == 205 # 2
  /\ ~ (x (ticks canvas100 title_banner 3 banner_particle)
        <= width canvas100 + radius banner_particle).
Proof. q_closed. Qed.

(** C3, amended. When each velocity component is at most the radius in
    magnitude (the source draws them in [-2,2) for radius 2), the particle
    starts inside the canvas, and the title's rectangle lies at least one
    radius inside the canvas on every side, then after any number of calls of
    [update] the position is within [-r, width + r] and [-r, height + r]. *)
Theorem update_bounded_domain (canvas : Canvas) (titleBox : DOMRect) (p : t) (n : nat) :
  - radius p <= directionX p <= radius p ->
  - radius p <= directionY p <= radius p ->
  0 <= x p <= width canvas ->
  0 <= y p <= height canvas ->
  radius p <= rect_left titleBox ->
  rect_left titleBox + rect_width titleBox + radius p <= width canvas ->
  radius p <= rect_top titleBox ->
  rect_top titleBox + rect_height titleBox + radius p <= height canvas ->
  (- radius p <= x (ticks canvas titleBox n p) <= width canvas + radius p)
  /\ (- radius p <= y (ticks canvas titleBox n p) <= height canvas + radius p).
Proof.
  intros HdX HdY Hx Hy Hl Hr Ht Hb.
  apply (inside_bounds canvas (radius p)).
  apply inside_ticks; try assumption.
  unfold inside. repeat split; intros; lra.
Qed.

Lemma update_bounded_domain_witness :
  (- radius corner_particle <= directionX corner_particle <= radius corner_particle)
  /\ (0 <= x corner_particle <= width canvas100)
  /\ (radius corner_particle <= rect_left title_centre)
  /\ (rect_left title_centre + rect_width title_centre + radius corner_particle
      <= width canvas100)
  /\ (- 2 <= x (ticks canvas100 title_centre 7 corner_particle) <= 100 + 2)
  /\ (- 2 <= y (ticks canvas100 title_centre 7 corner_particle) <= 100 + 2).
Proof.
  split; [q_closed |]. split; [q_closed |]. split; [q_closed |].
  split; [q_closed |].
  apply (update_bounded_domain canvas100 title_centre corner_particle 7);
    q_closed.
Defined.

(** A particle made by the constructor with radius 2 from draws in [0,1),
    placed inside the canvas, meets the conditions above. *)
Lemma constructed_particle_inside (canvas : Canvas) (x0 y0 u v : Q) (c : string) :
  0 <= u < 1 -> 0 <= v < 1 ->
  0 <= x0 <= width canvas -> 0 <= y0 <= height canvas ->
  inside canvas 2 (new x0 y0 2 c u v).
Proof.
  intros [? ?] [? ?] [? ?] [? ?]. unfold inside, new.
  cbn [x y radius directionX directionY].
  repeat split; intros; lra.
Qed.

(** The velocity range of the constructor: both components lie in [-2,2). *)
Lemma new_direction_range x0 y0 r0 c u v :
  0 <= u < 1 -> 0 <= v < 1 ->
  - 2 <= directionX (new x0 y0 r0 c u v) < 2
  /\ - 2 <= directionY (new x0 y0 r0 c u v) < 2.
Proof. simpl. intros [? ?] [? ?]. repeat split; lra. Qed.

End ParticleClaims.

(** ** The frame of the particle network *)
Module NetworkFacts.
Import Particle Network.

Section Frame.
Variable sqrt : Q -> Q.
Variable canvas : Canvas.
Variable titleBox : DOMRect.

Lemma flat_map_lookup_seq (f : t -> list cmd) (l1 l2 : list t) :
  flat_map (fun j => match (l1 ++ l2) !! j with Some b => f b | None => [] end)
    (seq (length l1) (length l2))
  = flat_map f l2.
Proof.
  revert l1. induction l2 as [| b l2 IH]; intros l1; [reflexivity |].
  cbn [length seq flat_map]. rewrite list_lookup_middle by reflexivity.
  f_equal.
  specialize (IH (l1 ++ [b])). rewrite <- app_assoc in IH. cbn [app] in IH.
  rewrite length_app in IH. cbn [length] in IH.
  replace (length l1 + 1)%nat with (S (length l1)) in IH by lia.
  exact IH.
Qed.

Lemma insert_middle (l1 l2 : list t) (a a' : t) :
  <[length l1 := a']> (l1 ++ a :: l2) = l1 ++ a' :: l2.
Proof.
  pose proof (insert_app_r l1 (a :: l2) 0 a') as H.
  rewrite Nat.add_0_r in H. exact H.
Qed.

Lemma inner_loop_middle (l1 rest : list t) (a : t) :
  inner_loop sqrt (length l1) (l1 ++ a :: rest)
  = connect sqrt a a ++ flat_map (connect sqrt a) rest.
Proof.
  unfold inner_loop.
  rewrite length_app. cbn [length].
  replace (length l1 + S (length rest) - length l1)%nat
    with (length (a :: rest)) by (cbn [length]; lia).
  rewrite (flat_map_ext _ (fun j => match (l1 ++ a :: rest) !! j with
                                    | Some b => connect sqrt a b
                                    | None => []
                                    end)).
  - rewrite flat_map_lookup_seq. reflexivity.
  - intros j. rewrite list_lookup_middle by reflexivity.
    destruct ((l1 ++ a :: rest) !! j); reflexivity.
Qed.

Lemma outer_loop_from (post : list t) :
  forall (pre : list t) (calls : list cmd),
    foldl (outer_step sqrt canvas titleBox) (pre ++ post, calls)
      (seq (length pre) (length post))
    = (pre ++ List.map (update canvas titleBox) post,
       calls ++ frame_calls sqrt canvas titleBox post).
Proof.
  induction post as [| a rest IH]; intros pre calls.
  - cbn. rewrite !app_nil_r. reflexivity.
  - cbn [length seq foldl]. unfold outer_step at 2. cbn [fst snd].
    rewrite list_lookup_middle by reflexivity.
    rewrite insert_middle.
    rewrite inner_loop_middle.
    specialize (IH (pre ++ [update canvas titleBox a])
                   (calls ++ draw a ::
                      connect sqrt (update canvas titleBox a) (update canvas titleBox a)
                      ++ flat_map (connect sqrt (update canvas titleBox a)) rest)).
    rewrite <- app_assoc in IH. cbn [app] in IH.
    rewrite length_app in IH. cbn [length] in IH.
    replace (length pre + 1)%nat with (S (length pre)) in IH by lia.
    rewrite IH. cbn [List.map frame_calls].
    rewrite <- !app_assoc. cbn [app]. rewrite <- !app_assoc. reflexivity.
Qed.

(** The frame computes the iteration scheme. *)
Lemma animate_frame_calls (ps : list t) :
  animate sqrt canvas titleBox ps
  = (List.map (update canvas titleBox) ps,
     ClearRect 0 0 (width canvas) (height canvas)
       :: frame_calls sqrt canvas titleBox ps).
Proof. unfold animate. apply (outer_loop_from ps []). Qed.


End Frame.
End NetworkFacts.

(** ** The claim on the connector lines *)
Module NetworkClaims.
Import Particle Network NetworkFacts Scenes Geometry.










Lemma isqrt_nonneg q : 0 <= isqrt q.
Proof.
  unfold isqrt. change 0 with (inject_Z 0). rewrite <- Zle_Qle.
  apply Z.sqrt_nonneg.
Qed.

Lemma isqrt_zero q : q == 0 -> isqrt q == 0.
Proof. intros H. unfold isqrt. rewrite H. reflexivity. Qed.



End NetworkClaims.

(** ** The colour wave *)
Module ColorWaveFacts.
Import ColorWave.

(** On a dividend that is not negative, [% 1.0] is the fractional part. *)
Lemma rem_one_nonneg (a : Q) :
  0 <= a ->
  exists q, JS.rem a 1 = Some q /\ q == a - inject_Z (Qfloor a) /\ 0 <= q < 1.
Proof.
  intros Ha. unfold JS.rem. cbn [Qeq_bool].
  change (Qeq_bool 1 0) with false. cbv iota.
  assert (E : a / 1 == a) by (unfold Qdiv; change (/ 1) with 1; ring).
  assert (Ht : JS.trunc (a / 1) = Qfloor a).
  { rewrite JSFacts.trunc_nonneg by (rewrite E; exact Ha).
    rewrite E. reflexivity. }
  eexists. split; [reflexivity |]. rewrite Ht.
  pose proof (Qfloor_le a) as Hlo. pose proof (Qlt_floor a) as Hhi.
  rewrite inject_Z_plus in Hhi. change (inject_Z 1) with 1 in Hhi.
  split; [ring | split; lra].
Qed.

(** The hue of a height that is not negative, at a time that is not
    negative, for a frequency that is not negative and a positive speed. *)
Lemma hue_with_nonneg (F S h t : Q) :
  0 <= F -> 0 <= S -> 0 <= h -> 0 <= t ->
  exists q, hue_with F S (Some h) t = Some q
            /\ q == spec_hue F S h t /\ 0 <= q < 1.
Proof.
  intros HF HS Hh Ht. unfold hue_with, spec_hue.
  apply rem_one_nonneg.
  pose proof (Qmult_le_0_compat h F Hh HF).
  pose proof (Qmult_le_0_compat t S Ht HS). lra.
Qed.

(** One period later the fractional part is the same. *)
Lemma Qfloor_succ (a : Q) : Qfloor (a + 1) = (Qfloor a + 1)%Z.
Proof.
  pose proof (Qfloor_le a) as Hlo. pose proof (Qlt_floor a) as Hhi.
  pose proof (Qfloor_le (a + 1)) as Hlo'.
  pose proof (Qlt_floor (a + 1)) as Hhi'.
  rewrite inject_Z_plus in Hhi, Hhi'. change (inject_Z 1) with 1 in *.
  assert (H1 : (Qfloor (a + 1) < Qfloor a + 2)%Z).
  { rewrite Zlt_Qlt, inject_Z_plus. change (inject_Z 2) with 2. lra. }
  assert (H2 : (Qfloor a < Qfloor (a + 1))%Z).
  { rewrite Zlt_Qlt. lra. }
  lia.
Qed.

Lemma spec_hue_periodic (F S h t : Q) :
  ~ S == 0 -> spec_hue F S h (t + 1 / S) == spec_hue F S h t.
Proof.
  intros HS. unfold spec_hue.
  assert (E : h * F + (t + 1 / S) * S == (h * F + t * S) + 1)
    by (field; exact HS).
  assert (Efl : Qfloor (h * F + (t + 1 / S) * S) = (Qfloor (h * F + t * S) + 1)%Z).
  { rewrite <- Qfloor_succ. apply Qfloor_comp. exact E. }
  rewrite Efl, inject_Z_plus. change (inject_Z 1) with 1.
  set (fl := inject_Z (Qfloor (h * F + t * S))). lra.
Qed.

Lemma hue_with_periodic (F S h t : Q) :
  0 <= F -> 0 < S -> 0 <= h -> 0 <= t ->
  exists a b, hue_with F S (Some h) (t + 1 / S) = Some a
              /\ hue_with F S (Some h) t = Some b /\ a == b.
Proof.
  intros HF HS Hh Ht.
  assert (Hinv : 0 <= 1 / S).
  { unfold Qdiv. rewrite Qmult_1_l. apply Qinv_le_0_compat. lra. }
  destruct (hue_with_nonneg F S h (t + 1 / S)) as (a & Ea & Ha & _);
    try lra.
  destruct (hue_with_nonneg F S h t) as (b & Eb & Hb & _); try lra.
  exists a, b. split; [exact Ea |]. split; [exact Eb |].
  rewrite Ha, Hb. apply spec_hue_periodic. lra.
Qed.

(** JavaScript's [%] follows the sign of the dividend: with a negative
    speed the hue leaves [0,1) and the period is lost where the dividend
    changes sign. The source fixes the speed at 0.5. *)
Example hue_with_negative_speed :
  match hue_with (1 # 10) (- 1) (Some 1) (21 # 20),
        hue_with (1 # 10) (- 1) (Some 1) ((21 # 20) + 1 / (- 1)) with
  | Some a, Some b => a == - (19 # 20) /\ b == 1 # 20
  | _, _ => False
  end.
Proof. vm_compute. split; reflexivity. Qed.

Section Loop.
Variable setHSL : option Q -> Q -> Q -> RGB.
Variables time ymin yrange : Q.
Variable positions : list Vector3.

Lemma color_loop_prefix (n : nat) (colors : list RGB) :
  length (foldl (color_step setHSL time ymin yrange positions) colors (seq 0 n)) = length colors
  /\ (forall i pos, (i < n)%nat -> positions !! i = Some pos ->
        (i < length colors)%nat ->
        foldl (color_step setHSL time ymin yrange positions) colors (seq 0 n) !! i
        = Some (vertex_color setHSL time ymin yrange (vy pos)))
  /\ (forall i, (n <= i)%nat -> foldl (color_step setHSL time ymin yrange positions) colors (seq 0 n) !! i = colors !! i).
Proof.
  induction n as [| n (IHlen & IHlt & IHge)]; [cbn; repeat split; auto; lia |].
  rewrite seq_S, foldl_app. cbn [foldl Nat.add].
  set (cs := foldl (color_step setHSL time ymin yrange positions) colors (seq 0 n)) in *.
  assert (Hlen : length (color_step setHSL time ymin yrange positions cs n)
                 = length colors).
  { unfold color_step. destruct (positions !! n); [rewrite length_insert |]; exact IHlen. }
  split; [exact Hlen |]. split.
  - intros i pos Hi Hpos Hcol. unfold color_step.
    destruct (Nat.eq_dec i n) as [-> | Hne].
    + rewrite Hpos. apply list_lookup_insert_eq. lia.
    + destruct (positions !! n).
      * rewrite list_lookup_insert_ne by auto. apply IHlt; auto. lia.
      * apply IHlt; auto. lia.
  - intros i Hi. unfold color_step.
    destruct (positions !! n).
    + rewrite list_lookup_insert_ne by lia. apply IHge. lia.
    + apply IHge. lia.
Qed.

Lemma color_loop_lookup (colors : list RGB) (i : nat) (pos : Vector3) :
  positions !! i = Some pos -> (i < length colors)%nat ->
  color_loop setHSL time ymin yrange positions colors !! i
  = Some (vertex_color setHSL time ymin yrange (vy pos)).
Proof.
  intros Hpos Hi.
  destruct (color_loop_prefix (length positions) colors) as (_ & H & _).
  apply H; auto. apply lookup_lt_Some in Hpos. exact Hpos.
Qed.

Lemma color_loop_length (colors : list RGB) :
  length (color_loop setHSL time ymin yrange positions colors) = length colors.
Proof. apply (color_loop_prefix (length positions) colors). Qed.

End Loop.

(** The guard keeps the divisor away from zero: the height is always a
    finite number. *)
Lemma normalizedY_finite (ymin yrange y0 : Q) :
  exists h, normalizedY ymin yrange y0 = Some h.
Proof.
  unfold normalizedY, JS.div.
  destruct (JS.gtb yrange 0) eqn:E; [| eauto].
  js_cmp. destruct (Qeq_bool yrange 0) eqn:E0; [| eauto].
  apply Qeq_bool_iff in E0. lra.
Qed.

End ColorWaveFacts.

(** ** The claims on [updateColors] *)
Module ColorWaveClaims.
Import ColorWave ColorWaveFacts Molecules.

(** C1. For a mesh with positions and a colour attribute, and an element [i]
    whose normalized height [h] lies in [0,1], at a time [t >= 0]: the call
    ends without exception, the colour written in slot [i] is the one
    [setHSL] gives for the hue, full saturation and lightness 0.5, and that
    hue is [(h * 0.1 + t * 0.5) mod 1.0], a number in [0,1). *)
Theorem hue_written (setHSL : option Q -> Q -> Q -> RGB) (time : Q) (item : Item)
    (ps : list Vector3) (ca : ColorAttribute) (i : nat) (pos : Vector3) (h : Q) :
  position (geometry item) = Some ps ->
  color (geometry item) = Some ca ->
  ps !! i = Some pos ->
  (i < length (array ca))%nat ->
  normalizedY (yMin item) (yRange item) (vy pos) = Some h ->
  0 <= h <= 1 ->
  0 <= time ->
  exists (hu : Q) (item' : Item) (ca' : ColorAttribute),
    update_item setHSL time item = (item', [], None)
    /\ color (geometry item') = Some ca'
    /\ array ca' !! i = Some (setHSL (Some hu) 1 (1 # 2))
    /\ hue (Some h) time = Some hu
    /\ hu == spec_hue (1 # 10) (1 # 2) h time
    /\ 0 <= hu < 1.
Proof.
  intros Hps Hca Hpos Hi Hh Hrange Ht.
  destruct (hue_with_nonneg colorWaveFrequency colorWaveSpeed h time)
    as (hu & Ehu & Hspec & Hbounds);
    try (unfold colorWaveFrequency, colorWaveSpeed; lra).
  exists hu. unfold update_item. rewrite Hca, Hps.
  eexists. eexists. split; [reflexivity |]. cbn [geometry color array].
  split; [reflexivity |]. cbn [array]. split.
  - rewrite (color_loop_lookup setHSL time (yMin item) (yRange item) ps (array ca) i pos)
      by assumption.
    unfold vertex_color. rewrite Hh. unfold hue. rewrite Ehu. reflexivity.
  - split; [exact Ehu |]. split; [exact Hspec | exact Hbounds].
Qed.

(** The first end-to-end scenario: height 0.5 at time 2 gives hue 0.05. *)
Lemma hue_written_witness :
  0 <= 5 / 10 <= 1 /\
  exists (hu : Q) (ca' : ColorAttribute),
    color (geometry (fst (fst (update_item hsl_to_rgb 2 molecule)))) = Some ca'
    /\ array ca' !! 1%nat = Some (hsl_to_rgb (Some hu) 1 (1 # 2))
    /\ hu == 1 # 20.
Proof.
  destruct (hue_written hsl_to_rgb 2 molecule atoms
              {| array := [black; black; black]; needsUpdate := false |}
              1%nat {| vx := 1; vy := 5; vz := 0 |} (5 / 10))
    as (hu & item' & ca' & Hrun & Hca & Hslot & _ & Hspec & _);
    [ reflexivity | reflexivity | reflexivity | cbn [array length]; lia
    | reflexivity | split; vm_compute; discriminate
    | vm_compute; discriminate | ].
  split; [split; vm_compute; discriminate |].
  exists hu, ca'. rewrite Hrun. cbn [fst].
  split; [exact Hca |]. split; [exact Hslot |].
  rewrite Hspec. vm_compute. reflexivity.
Defined.

(** C4. When the vertical extent is degenerate ([yRange] is 0) the division
    is not evaluated: the normalized height is exactly 0.5 for every
    element, the hue is a finite number at every time, and every slot written
    by the update holds the colour of height 0.5. *)
Theorem degenerate_extent (setHSL : option Q -> Q -> Q -> RGB)
    (ymin yrange y0 time : Q) :
  yrange == 0 ->
  normalizedY ymin yrange y0 = Some (1 # 2)
  /\ (exists hu, hue (normalizedY ymin yrange y0) time = Some hu)
  /\ vertex_color setHSL time ymin yrange y0
     = setHSL (hue (Some (1 # 2)) time) 1 (1 # 2)
  /\ (forall item ps ca i pos,
        yMin item = ymin -> yRange item = yrange ->
        position (geometry item) = Some ps ->
        color (geometry item) = Some ca ->
        ps !! i = Some pos -> (i < length (array ca))%nat ->
        exists item' ca',
          update_item setHSL time item = (item', [], None)
          /\ color (geometry item') = Some ca'
          /\ array ca' !! i = Some (setHSL (hue (Some (1 # 2)) time) 1 (1 # 2))).
Proof.
  intros Hflat.
  assert (Hn : forall y1, normalizedY ymin yrange y1 = Some (1 # 2)).
  { intros y1. unfold normalizedY.
    destruct (JS.gtb yrange 0) eqn:E; [| reflexivity]. js_cmp. lra. }
  split; [apply Hn |]. split.
  { rewrite Hn. unfold hue, hue_with, JS.rem.
    change (Qeq_bool 1 0) with false. cbv iota. eauto. }
  split; [unfold vertex_color; rewrite Hn; reflexivity |].
  intros item ps ca i pos Hymin Hyrange Hps Hca Hpos Hi.
  unfold update_item. rewrite Hca, Hps.
  eexists. eexists. split; [reflexivity |]. cbn [geometry color].
  split; [reflexivity |]. cbn [array].
  rewrite (color_loop_lookup setHSL time (yMin item) (yRange item) ps (array ca) i pos)
    by assumption.
  unfold vertex_color. rewrite Hymin, Hyrange, Hn. reflexivity.
Qed.

Lemma degenerate_extent_witness :
  yRange flat_molecule == 0
  /\ normalizedY (yMin flat_molecule) (yRange flat_molecule) 3 = Some (1 # 2)
  /\ exists hu, hue (normalizedY (yMin flat_molecule) (yRange flat_molecule) 3) 7
                = Some hu.
Proof.
  split; [reflexivity |].
  destruct (degenerate_extent hsl_to_rgb (yMin flat_molecule) (yRange flat_molecule) 3 7)
    as (Hn & Hhue & _); [reflexivity |].
  split; [exact Hn | exact Hhue].
Defined.




(** C8. A mesh whose geometry has no colour attribute is skipped: the call
    for it returns the mesh as it was, logs the warning once and throws
    nothing (whether or not positions exist); the traversal goes on with the
    meshes after it; and when every mesh lacks the attribute the whole update
    changes nothing and throws nothing. *)
Theorem missing_color_skipped (setHSL : option Q -> Q -> Q -> RGB) (time : Q)
    (item : Item) :
  color (geometry item) = None ->
  update_item setHSL time item = (item, [missing_color_warning], None)
  /\ (forall rest,
        updateColors setHSL time (item :: rest)
        = (item :: fst (fst (updateColors setHSL time rest)),
           missing_color_warning :: snd (fst (updateColors setHSL time rest)),
           snd (updateColors setHSL time rest)))
  /\ (forall meshes,
        Forall (fun it => color (geometry it) = None) meshes ->
        updateColors setHSL time (item :: meshes)
        = (item :: meshes,
           replicate (S (length meshes)) missing_color_warning,
           None)).
Proof.
  intros Hnone.
  assert (Hitem : forall it, color (geometry it) = None ->
            update_item setHSL time it = (it, [missing_color_warning], None)).
  { intros it H. unfold update_item. rewrite H. reflexivity. }
  assert (Hstep : forall it rest, color (geometry it) = None ->
            updateColors setHSL time (it :: rest)
            = (it :: fst (fst (updateColors setHSL time rest)),
               missing_color_warning :: snd (fst (updateColors setHSL time rest)),
               snd (updateColors setHSL time rest))).
  { intros it rest H. cbn [updateColors]. rewrite (Hitem it H).
    destruct (updateColors setHSL time rest) as [[rest' logged] e]. reflexivity. }
  split; [apply Hitem, Hnone |]. split; [intros rest; apply Hstep, Hnone |].
  intros meshes Hall. rewrite (Hstep item meshes Hnone).
  assert (Hrest : updateColors setHSL time meshes
                  = (meshes, replicate (length meshes) missing_color_warning, None)).
  { induction Hall as [| it rest Hit _ IH]; [reflexivity |].
    rewrite (Hstep it rest Hit), IH. reflexivity. }
  rewrite Hrest. reflexivity.
Qed.

Lemma missing_color_skipped_witness :
  color (geometry bare_mesh) = None
  /\ update_item hsl_to_rgb 2 bare_mesh = (bare_mesh, [missing_color_warning], None)
  /\ snd (updateColors hsl_to_rgb 2 [bare_mesh; uncoloured_molecule]) = None.
Proof.
  split; [reflexivity |].
  destruct (missing_color_skipped hsl_to_rgb 2 bare_mesh) as (Hitem & _ & Hall);
    [reflexivity |].
  split; [exact Hitem |].
  rewrite (Hall [uncoloured_molecule]); [reflexivity |].
  repeat constructor.
Defined.

(** C9. With no mesh loaded, the colour update returns the empty list of
    meshes, logs nothing and throws nothing, at every time and for every
    behaviour of [setHSL]; a whole frame then leaves the list of meshes empty
    (there is no buffer to write), logs nothing and throws nothing. *)
Theorem updateColors_empty (setHSL : option Q -> Q -> Q -> RGB) (time : Q) :
  updateColors setHSL time [] = ([], [], None)
  /\ (forall deltaTime v,
        atomMeshes v = [] ->
        animate setHSL deltaTime time v
        = ({| rotation_y := rotation_y v + rotationSpeed * deltaTime;
              atomMeshes := [] |}, [], None)).
Proof.
  split; [reflexivity |].
  intros deltaTime v Hempty. unfold animate. rewrite Hempty.
  cbn [updateColors]. reflexivity.
Qed.

Lemma updateColors_empty_witness :
  atomMeshes {| rotation_y := 0; atomMeshes := [] |} = []
  /\ snd (animate hsl_to_rgb (1 # 60) 2 {| rotation_y := 0; atomMeshes := [] |})
     = None
  /\ atomMeshes (fst (fst (animate hsl_to_rgb (1 # 60) 2
                             {| rotation_y := 0; atomMeshes := [] |}))) = [].
Proof.
  split; [reflexivity |].
  destruct (updateColors_empty hsl_to_rgb 2) as [_ H].
  rewrite (H (1 # 60) {| rotation_y := 0; atomMeshes := [] |}); [| reflexivity].
  split; reflexivity.
Defined.

End ColorWaveClaims.

(** * Further properties *)

(** ** More on the particle step *)
Module ParticleExtras.
Import Particle ParticleFacts Scenes NetworkRun.

Section Step.
Variable canvas : Canvas.
Variable titleBox : DOMRect.

Lemma wall_bounce_identity p :
  color (wall_bounce canvas p) = color p
  /\ baseX (wall_bounce canvas p) = baseX p
  /\ baseY (wall_bounce canvas p) = baseY p.
Proof.
  unfold wall_bounce.
  destruct (JS.geb (x p + radius p + directionX p) (width canvas)
            || JS.leb (x p - radius p + directionX p) 0);
  match goal with |- context [if ?c then _ else _] => destruct c end;
  cbn [color baseX baseY set_directionX set_directionY]; auto.
Qed.

Lemma detect_collision_identity p :
  color (detect_collision titleBox p) = color p
  /\ baseX (detect_collision titleBox p) = baseX p
  /\ baseY (detect_collision titleBox p) = baseY p.
Proof. unfold detect_collision. destruct (colliding titleBox p); cbn; auto. Qed.

Lemma obstacle_bounce_identity p :
  color (obstacle_bounce titleBox p) = color p
  /\ baseX (obstacle_bounce titleBox p) = baseX p
  /\ baseY (obstacle_bounce titleBox p) = baseY p.
Proof.
  unfold obstacle_bounce.
  repeat match goal with |- context [if ?c then _ else _] => destruct c end;
  cbn [color baseX baseY set_directionX set_directionY]; auto.
Qed.

Lemma update_identity p :
  color (update canvas titleBox p) = color p
  /\ baseX (update canvas titleBox p) = baseX p
  /\ baseY (update canvas titleBox p) = baseY p.
Proof.
  unfold update.
  destruct (obstacle_bounce_identity (detect_collision titleBox (wall_bounce canvas (move p))))
    as (-> & -> & ->).
  destruct (detect_collision_identity (wall_bounce canvas (move p))) as (-> & -> & ->).
  destruct (wall_bounce_identity (move p)) as (-> & -> & ->).
  auto.
Qed.

(** X1. Whatever the number of calls, [update] leaves the radius, the colour
    and the base position of a particle as they were, and each velocity
    component is the initial one or its opposite: the speed along each axis
    never changes. *)
Theorem ticks_keep_particle (n : nat) (p : t) :
  radius (ticks canvas titleBox n p) = radius p
  /\ color (ticks canvas titleBox n p) = color p
  /\ baseX (ticks canvas titleBox n p) = baseX p
  /\ baseY (ticks canvas titleBox n p) = baseY p
  /\ (directionX (ticks canvas titleBox n p) = directionX p
      \/ directionX (ticks canvas titleBox n p) = - directionX p)
  /\ (directionY (ticks canvas titleBox n p) = directionY p
      \/ directionY (ticks canvas titleBox n p) = - directionY p).
Proof.
  revert p. induction n as [| n IH]; intros p; [cbn; auto 10 |].
  cbn [ticks].
  destruct (IH (update canvas titleBox p)) as (Hr & Hc & Hbx & Hby & HdX & HdY).
  destruct (update_identity p) as (Ec & Ebx & Eby).
  destruct (update_direction canvas titleBox p) as (EdX & EdY).
  rewrite Hr, Hc, Hbx, Hby, update_radius, Ec, Ebx, Eby.
  repeat split.
  - destruct HdX as [-> | ->], EdX as [-> | ->]; rewrite ?Qopp_opp_eq; auto.
  - destruct HdY as [-> | ->], EdY as [-> | ->]; rewrite ?Qopp_opp_eq; auto.
Qed.

Lemma wall_bounce_directionX p :
  directionX (wall_bounce canvas p)
  = if JS.geb (x p + radius p + directionX p) (width canvas)
       || JS.leb (x p - radius p + directionX p) 0
    then - directionX p else directionX p.
Proof.
  unfold wall_bounce.
  destruct (JS.geb (x p + radius p + directionX p) (width canvas)
            || JS.leb (x p - radius p + directionX p) 0);
  match goal with |- context [if ?c then _ else _] => destruct c end;
  reflexivity.
Qed.

Lemma wall_bounce_directionY p :
  directionY (wall_bounce canvas p)
  = if JS.geb (y p + radius p + directionY p) (height canvas)
       || JS.leb (y p - radius p + directionY p) 0
    then - directionY p else directionY p.
Proof.
  unfold wall_bounce.
  destruct (JS.geb (x p + radius p + directionX p) (width canvas)
            || JS.leb (x p - radius p + directionX p) 0);
  cbn [x y radius directionY set_directionX];
  match goal with |- context [if ?c then _ else _] => destruct c end;
  reflexivity.
Qed.

Lemma wall_test_true (a lo hi : Q) :
  hi <= a \/ lo <= 0 -> JS.geb a hi || JS.leb lo 0 = true.
Proof.
  intros [H | H]; apply orb_true_iff; [left | right];
    unfold JS.geb; apply JSFacts.leb_le; exact H.
Qed.

Lemma wall_test_false (a lo hi : Q) :
  a < hi -> 0 < lo -> JS.geb a hi || JS.leb lo 0 = false.
Proof.
  intros H1 H2. apply orb_false_iff. split;
    unfold JS.geb; apply JSFacts.leb_gt; assumption.
Qed.

(** X2. For a particle that does not overlap the title after its move, the
    wall tests alone decide the velocity: a component is negated when the
    moved particle, one more step ahead, would reach a wall ([>= width] or
    [<= 0] on its edge), and is kept when it would stay strictly inside. *)
Theorem wall_reflection (p : t) :
  colliding titleBox (move p) = false ->
  (width canvas <= x p + directionX p + radius p + directionX p
   \/ x p + directionX p - radius p + directionX p <= 0 ->
   directionX (update canvas titleBox p) = - directionX p)
  /\ (x p + directionX p + radius p + directionX p < width canvas ->
      0 < x p + directionX p - radius p + directionX p ->
      directionX (update canvas titleBox p) = directionX p)
  /\ (height canvas <= y p + directionY p + radius p + directionY p
      \/ y p + directionY p - radius p + directionY p <= 0 ->
      directionY (update canvas titleBox p) = - directionY p)
  /\ (y p + directionY p + radius p + directionY p < height canvas ->
      0 < y p + directionY p - radius p + directionY p ->
      directionY (update canvas titleBox p) = directionY p).
Proof.
  intros Hc.
  destruct (update_no_collision canvas titleBox p Hc) as [-> ->].
  rewrite wall_bounce_directionX, wall_bounce_directionY.
  cbn [move x y radius directionX directionY set_position].
  repeat split; intros.
  - rewrite wall_test_true by assumption. reflexivity.
  - rewrite wall_test_false by assumption. reflexivity.
  - rewrite wall_test_true by assumption. reflexivity.
  - rewrite wall_test_false by assumption. reflexivity.
Qed.

(** X3. When the wall test fires on the horizontal component and, in the
    same call, the particle overlaps the title within its left or right
    margin, the component is negated twice: the horizontal velocity after the
    call is the one before it, and the particle keeps heading for the wall. *)
Theorem wall_and_obstacle_cancel (p : t) :
  (width canvas <= x p + directionX p + radius p + directionX p
   \/ x p + directionX p - radius p + directionX p <= 0) ->
  colliding titleBox (move p) = true ->
  near_left titleBox (move p) = true \/ near_right titleBox (move p) = true ->
  directionX (update canvas titleBox p) = directionX p
  /\ directionY (update canvas titleBox p) = directionY (wall_bounce canvas (move p)).
Proof.
  intros Hw Hc Hn.
  unfold update, detect_collision. rewrite colliding_wall_bounce, Hc.
  unfold obstacle_bounce. cbn [collision set_collision Bool.eqb andb].
  assert (El : near_left titleBox (set_collision (wall_bounce canvas (move p)) true)
               = near_left titleBox (move p)).
  { unfold near_left. cbn [x radius set_collision].
    destruct (wall_bounce_position canvas (move p)) as (-> & _ & ->). reflexivity. }
  assert (Er : near_right titleBox (set_collision (wall_bounce canvas (move p)) true)
               = near_right titleBox (move p)).
  { unfold near_right. cbn [x radius set_collision].
    destruct (wall_bounce_position canvas (move p)) as (-> & _ & ->). reflexivity. }
  rewrite El, Er.
  assert (Ed : - directionX (wall_bounce canvas (move p)) = directionX p).
  { rewrite wall_bounce_directionX.
    cbn [move x y radius directionX directionY set_position].
    rewrite wall_test_true by assumption. apply Qopp_opp_eq. }
  destruct (near_left titleBox (move p)).
  - cbn [directionX directionY set_directionX set_collision]. auto.
  - destruct Hn as [Hn | Hn]; [discriminate |]. rewrite Hn.
    cbn [directionX directionY set_directionX set_collision]. auto.
Qed.

End Step.

Lemma wall_reflection_witness :
  colliding title_centre (move (particle 3 50 2 (- 1) 0)) = false
  /\ directionX (update canvas100 title_centre (particle 3 50 2 (- 1) 0)) = - - 1.
Proof.
  split; [reflexivity |].
  destruct (wall_reflection canvas100 title_centre (particle 3 50 2 (- 1) 0))
    as (H & _); [reflexivity |].
  apply H. right. vm_compute. discriminate.
Defined.

Lemma wall_and_obstacle_cancel_witness :
  colliding title_banner (move banner_particle) = true
  /\ near_right title_banner (move banner_particle) = true
  /\ directionX (update canvas100 title_banner banner_particle)
     = directionX banner_particle.
Proof.
  split; [reflexivity |]. split; [reflexivity |].
  apply (wall_and_obstacle_cancel canvas100 title_banner banner_particle).
  - left. vm_compute. discriminate.
  - reflexivity.
  - right. reflexivity.
Defined.

End ParticleExtras.

(** ** More on the frames of the particle network *)
Module NetworkExtras.
Import Particle ParticleFacts Network NetworkFacts NetworkRun Scenes.

Section Slack.
Variable canvas : Canvas.
Variable titleBox : DOMRect.
Variables r s : Q.
Hypothesis slack_nonneg : 0 <= s.
Hypothesis title_left : r - s <= rect_left titleBox.
Hypothesis title_right : rect_left titleBox + rect_width titleBox + r - s <= width canvas.
Hypothesis title_top : r - s <= rect_top titleBox.
Hypothesis title_bottom : rect_top titleBox + rect_height titleBox + r - s <= height canvas.

Lemma inside_slack_update p :
  inside_slack canvas r s p -> inside_slack canvas r s (update canvas titleBox p).
Proof.
  unfold inside_slack. intros (Hr & HdX & HdY & HxR & HxL & HyR & HyL).
  rewrite update_radius, update_x, update_y.
  split; [assumption |].
  destruct (Qlt_le_dec (directionX p) 0) as [Hx | Hx];
    [ specialize (HxL (Qlt_le_weak _ _ Hx)); clear HxR
    | specialize (HxR Hx); clear HxL ];
  (destruct (Qlt_le_dec (directionY p) 0) as [Hy | Hy];
    [ specialize (HyL (Qlt_le_weak _ _ Hy)); clear HyR
    | specialize (HyR Hy); clear HyL ]);
  destruct (ParticleClaims.update_directionX_cases canvas titleBox p)
    as [(? & ? & [-> | ->]) | [-> | (-> & ? & ?)]];
  destruct (ParticleClaims.update_directionY_cases canvas titleBox p)
    as [(? & ? & [-> | ->]) | [-> | (-> & ? & ?)]];
  repeat split; intros; lra.
Qed.

Lemma inside_slack_ticks n :
  forall p, inside_slack canvas r s p ->
            inside_slack canvas r s (ticks canvas titleBox n p).
Proof.
  induction n as [| n IH]; intros p Hp; cbn [ticks]; [exact Hp |].
  apply IH, inside_slack_update, Hp.
Qed.

Lemma inside_slack_bounds p :
  inside_slack canvas r s p ->
  (- r - s <= x p <= width canvas + r + s)
  /\ (- r - s <= y p <= height canvas + r + s).
Proof.
  unfold inside_slack. intros (Hr & HdX & HdY & HxR & HxL & HyR & HyL).
  destruct (Qlt_le_dec (directionX p) 0) as [Hx | Hx];
  destruct (Qlt_le_dec (directionY p) 0) as [Hy | Hy];
  repeat split; lra.
Qed.

End Slack.

(** X4. With the title's rectangle anywhere inside the canvas, a block-level
    title spanning its width included, a particle that starts inside the
    canvas with velocity components of magnitude at most its radius [r] is
    never further than [2r] outside the canvas, after any number of calls. *)
Theorem title_in_canvas_bound (canvas : Canvas) (titleBox : DOMRect) (p : t) (n : nat) :
  - radius p <= directionX p <= radius p ->
  - radius p <= directionY p <= radius p ->
  0 <= x p <= width canvas ->
  0 <= y p <= height canvas ->
  0 <= rect_left titleBox ->
  rect_left titleBox + rect_width titleBox <= width canvas ->
  0 <= rect_top titleBox ->
  rect_top titleBox + rect_height titleBox <= height canvas ->
  (- (2 * radius p) <= x (ticks canvas titleBox n p) <= width canvas + 2 * radius p)
  /\ (- (2 * radius p) <= y (ticks canvas titleBox n p) <= height canvas + 2 * radius p).
Proof.
  intros HdX HdY Hx Hy Hl Hr Ht Hb.
  assert (Hrad : 0 <= radius p) by lra.
  destruct (inside_slack_bounds canvas (radius p) (radius p)
              (ticks canvas titleBox n p)) as (HX & HY).
  { apply inside_slack_ticks; try lra.
    unfold inside_slack. repeat split; intros; lra. }
  split; lra.
Qed.

Lemma title_in_canvas_bound_witness :
  (0 <= rect_left title_banner)
  /\ (rect_left title_banner + rect_width title_banner <= width canvas100)
  /\ (- (2 * 2) <= x (ticks canvas100 title_banner 3 banner_particle) <= 100 + 2 * 2).
Proof.
  split; [q_closed |]. split; [q_closed |].
  apply (title_in_canvas_bound canvas100 title_banner banner_particle 3); q_closed.
Defined.

Section Frames.
Variable sqrt : Q -> Q.
Variable canvas : Canvas.
Variable titleBox : DOMRect.

Lemma frames_particles (k : nat) :
  forall ps, fst (frames sqrt canvas titleBox k ps)
             = List.map (ticks canvas titleBox k) ps.
Proof.
  induction k as [| k IH]; intros ps.
  - cbn. symmetry. apply List.map_id.
  - cbn [frames fst]. rewrite IH, animate_frame_calls. cbn [fst].
    rewrite List.map_map. reflexivity.
Qed.

(** X5. After [k] frames every particle has been updated exactly [k] times,
    in place: the particle list is the initial one with [k] calls of
    [update] applied to each entry, and its length is unchanged. *)
Theorem frames_are_ticks (k : nat) (ps : list t) :
  fst (frames sqrt canvas titleBox k ps) = List.map (ticks canvas titleBox k) ps
  /\ length (fst (frames sqrt canvas titleBox k ps)) = length ps.
Proof.
  split; [apply frames_particles |].
  rewrite frames_particles. apply length_map.
Qed.

Lemma connect_no_arc a b : List.filter is_arc (connect sqrt a b) = [].
Proof. unfold connect. destruct (JS.ltb _ _); reflexivity. Qed.

Lemma flat_map_connect_no_arc a l :
  List.filter is_arc (flat_map (connect sqrt a) l) = [].
Proof.
  induction l as [| b l IH]; [reflexivity |].
  cbn [flat_map]. rewrite List.filter_app, connect_no_arc, IH. reflexivity.
Qed.

(** X6. Each frame clears the canvas first and draws every particle exactly
    once, in list order, at the position it had before its update of that
    frame (the connector lines use the updated position). *)
Theorem frame_draws_each_particle_once (ps : list t) :
  (exists calls, snd (animate sqrt canvas titleBox ps)
                 = ClearRect 0 0 (width canvas) (height canvas) :: calls)
  /\ List.filter is_arc (snd (animate sqrt canvas titleBox ps)) = List.map draw ps.
Proof.
  rewrite animate_frame_calls. cbn [snd]. split; [eauto |].
  cbn [List.filter is_arc].
  induction ps as [| a rest IH]; [reflexivity |].
  cbn [frame_calls List.filter is_arc draw List.map].
  rewrite !List.filter_app, connect_no_arc, flat_map_connect_no_arc, IH.
  reflexivity.
Qed.

Lemma connect_length a b : (length (connect sqrt a b) <= 1)%nat.
Proof. unfold connect. destruct (JS.ltb _ _); cbn; lia. Qed.

Lemma flat_map_connect_length a l :
  (length (flat_map (connect sqrt a) l) <= length l)%nat.
Proof.
  induction l as [| b l IH]; [cbn; lia |].
  cbn [flat_map length]. rewrite length_app.
  pose proof (connect_length a b). lia.
Qed.

Lemma filter_stroke_length (l : list cmd) :
  (length (List.filter is_stroke l) <= length l)%nat.
Proof.
  induction l as [| c l IH]; [cbn; lia |].
  cbn [List.filter]. destruct (is_stroke c); cbn [length]; lia.
Qed.

(** X7. A frame of [n] particles strokes at most [n (n + 1) / 2] connector
    lines: one per pair [(i, j)] with [i <= j] at most. *)
Theorem frame_strokes_at_most (ps : list t) :
  (2 * length (List.filter is_stroke (snd (animate sqrt canvas titleBox ps)))
   <= length ps * (length ps + 1))%nat.
Proof.
  rewrite animate_frame_calls. cbn [snd List.filter is_stroke].
  induction ps as [| a rest IH]; [cbn; lia |].
  cbn [frame_calls List.filter is_stroke draw length].
  rewrite !List.filter_app, !length_app.
  pose proof (filter_stroke_length
                (connect sqrt (update canvas titleBox a) (update canvas titleBox a))).
  pose proof (connect_length (update canvas titleBox a) (update canvas titleBox a)).
  pose proof (filter_stroke_length
                (flat_map (connect sqrt (update canvas titleBox a)) rest)).
  pose proof (flat_map_connect_length (update canvas titleBox a) rest).
  nia.
Qed.

Hypothesis sqrt_nonneg : forall q, 0 <= sqrt q.

Lemma connect_stroke_shape a b c :
  c ∈ connect sqrt a b ->
  exists o, c = Stroke (x a) (y a) (x b) (y b) 2 o /\ 0 < o <= 1.
Proof.
  unfold connect. destruct (JS.ltb (distance sqrt a b) maxDistance) eqn:E.
  - intros Hc. apply list_elem_of_singleton in Hc. subst c.
    eexists. split; [reflexivity |].
    apply JSFacts.ltb_lt in E. unfold maxDistance in *.
    pose proof (sqrt_nonneg ((x a - x b) * (x a - x b) + (y a - y b) * (y a - y b))) as H0.
    fold (distance sqrt a b) in H0.
    assert (Ed : distance sqrt a b / 250 == distance sqrt a b * (1 # 250))
      by (unfold Qdiv; reflexivity).
    rewrite Ed. split; lra.
  - intros Hc. inversion Hc.
Qed.

(** X8. Every call of a frame is the clearing of the canvas, the disc of a
    particle, or a line of width 2 whose opacity lies in (0,1]: no line is
    ever stroked with an opacity of 0 or less, or above 1. *)
Theorem frame_calls_shape (ps : list t) (c : cmd) :
  c ∈ snd (animate sqrt canvas titleBox ps) ->
  c = ClearRect 0 0 (width canvas) (height canvas)
  \/ (exists p, p ∈ ps /\ c = draw p)
  \/ (exists x1 y1 x2 y2 o, c = Stroke x1 y1 x2 y2 2 o /\ 0 < o <= 1).
Proof.
  rewrite animate_frame_calls. cbn [snd]. intros Hc.
  apply elem_of_cons in Hc. destruct Hc as [-> | Hc]; [left; reflexivity |].
  right. induction ps as [| a rest IH]; [inversion Hc |].
  cbn [frame_calls] in Hc.
  apply elem_of_cons in Hc. destruct Hc as [-> | Hc].
  { left. exists a. split; [left | reflexivity]. }
  rewrite !elem_of_app in Hc. destruct Hc as [Hc | [Hc | Hc]].
  - right. destruct (connect_stroke_shape _ _ _ Hc) as (o & -> & Ho). eauto 10.
  - right. apply list_elem_of_In, in_flat_map in Hc. destruct Hc as (b & _ & Hc).
    apply list_elem_of_In in Hc.
    destruct (connect_stroke_shape _ _ _ Hc) as (o & -> & Ho). eauto 10.
  - destruct (IH Hc) as [(p & Hp & ->) | H]; [left | right; exact H].
    exists p. split; [right; exact Hp | reflexivity].
Qed.

End Frames.

Lemma frame_calls_shape_witness :
  (forall q, 0 <= isqrt q)
  /\ (draw corner_particle = ClearRect 0 0 100 100
      \/ (exists p, p ∈ [corner_particle; margin_particle] /\ draw corner_particle = draw p)
      \/ (exists x1 y1 x2 y2 o,
            draw corner_particle = Stroke x1 y1 x2 y2 2 o /\ 0 < o <= 1)).
Proof.
  split; [exact NetworkClaims.isqrt_nonneg |].
  apply (frame_calls_shape isqrt canvas100 title_centre NetworkClaims.isqrt_nonneg
           [corner_particle; margin_particle] (draw corner_particle)).
  vm_compute. right. left.
Defined.

End NetworkExtras.

(** ** From [init] to any later frame *)
Module InitExtras.
Import Particle ParticleFacts Network NetworkFacts NetworkRun NetworkExtras Scenes Conditions.

Lemma scaled_draw_inside (rx w : Q) : 0 <= rx < 1 -> 0 <= w -> 0 <= rx * w <= w.
Proof.
  intros [H0 H1] Hw. split.
  - apply Qmult_le_0_compat; assumption.
  - assert (H : 0 <= (1 - rx) * w) by (apply Qmult_le_0_compat; lra).
    assert (E : (1 - rx) * w == w - rx * w) by ring.
    rewrite E in H. lra.
Qed.

(** X9. [init] makes thirty particles (fewer only if the random source runs
    short), each with radius 2, at its base position inside the canvas, not
    yet colliding, with both velocity components in [-2,2). *)
Theorem init_particles (canvas : Canvas) (draws : list (Q * Q * Q * Q)) :
  0 <= width canvas ->
  0 <= height canvas ->
  Forall unit_draws draws ->
  length (init canvas draws) = Nat.min 30 (length draws)
  /\ Forall (fun p =>
               radius p = 2 /\ collision p = false
               /\ baseX p = x p /\ baseY p = y p
               /\ 0 <= x p <= width canvas /\ 0 <= y p <= height canvas
               /\ - 2 <= directionX p < 2 /\ - 2 <= directionY p < 2)
            (init canvas draws).
Proof.
  intros Hw Hh Hdraws. unfold init. split.
  - rewrite length_map, length_take. reflexivity.
  - apply Forall_forall. intros p Hp.
    apply list_elem_of_In, in_map_iff in Hp. destruct Hp as (d & <- & Hd).
    apply list_elem_of_In, elem_of_take in Hd. destruct Hd as (i & Hd & _).
    assert (Hu : unit_draws d).
    { rewrite Forall_forall in Hdraws. apply Hdraws.
      apply list_elem_of_lookup. eauto. }
    destruct d as [[[rx ry] u] v]. destruct Hu as (Hrx & Hry & Hu & Hv).
    cbn [new radius collision baseX baseY x y directionX directionY].
    pose proof (scaled_draw_inside rx (width canvas) Hrx Hw).
    pose proof (scaled_draw_inside ry (height canvas) Hry Hh).
    repeat split; try lra.
Qed.

Lemma init_particles_witness :
  Forall unit_draws [(1 # 2, 1 # 4, 0, 3 # 4)]
  /\ length (init canvas100 [(1 # 2, 1 # 4, 0, 3 # 4)]) = 1%nat.
Proof.
  assert (H : Forall unit_draws [(1 # 2, 1 # 4, 0, 3 # 4)]).
  { repeat constructor; vm_compute; discriminate. }
  split; [exact H |].
  destruct (init_particles canvas100 [(1 # 2, 1 # 4, 0, 3 # 4)]) as [Hlen _];
    [vm_compute; discriminate | vm_compute; discriminate | exact H |].
  exact Hlen.
Defined.

(** X10. With the title's rectangle inside the canvas, every particle made
    by [init] stays within 4 px of the canvas (twice its radius) on each
    side, in every later frame. *)
Theorem network_stays_near_canvas (sqrt : Q -> Q) (canvas : Canvas)
    (titleBox : DOMRect) (draws : list (Q * Q * Q * Q)) (k : nat) (p : t) :
  Forall unit_draws draws ->
  0 <= width canvas ->
  0 <= height canvas ->
  0 <= rect_left titleBox ->
  rect_left titleBox + rect_width titleBox <= width canvas ->
  0 <= rect_top titleBox ->
  rect_top titleBox + rect_height titleBox <= height canvas ->
  p ∈ fst (frames sqrt canvas titleBox k (init canvas draws)) ->
  (- 4 <= x p <= width canvas + 4) /\ (- 4 <= y p <= height canvas + 4).
Proof.
  intros Hdraws Hw Hh Hl Hr Ht Hb Hp.
  rewrite frames_particles in Hp. apply list_elem_of_In, in_map_iff in Hp.
  destruct Hp as (p0 & <- & Hp0).
  assert (Hall : Forall (fun q => inside_slack canvas 2 2 q) (init canvas draws)).
  { unfold init. apply Forall_forall. intros q Hq.
    apply list_elem_of_In, in_map_iff in Hq. destruct Hq as (d & <- & Hd).
    apply list_elem_of_In, elem_of_take in Hd. destruct Hd as (i & Hd & _).
    assert (Hu : unit_draws d).
    { rewrite Forall_forall in Hdraws. apply Hdraws.
      apply list_elem_of_lookup. eauto. }
    destruct d as [[[rx ry] u] v]. destruct Hu as (Hrx & Hry & Hu & Hv).
    unfold inside_slack.
    cbn [new radius x y directionX directionY].
    pose proof (scaled_draw_inside rx (width canvas) Hrx Hw).
    pose proof (scaled_draw_inside ry (height canvas) Hry Hh).
    repeat split; intros; lra. }
  rewrite Forall_forall in Hall. apply list_elem_of_In in Hp0.
  specialize (Hall p0 Hp0).
  destruct (inside_slack_bounds canvas 2 2 (ticks canvas titleBox k p0)) as (HX & HY).
  { apply inside_slack_ticks; try lra. exact Hall. }
  split; lra.
Qed.

Lemma network_stays_near_canvas_witness :
  (0 <= rect_left title_banner)
  /\ (rect_left title_banner + rect_width title_banner <= width canvas100)
  /\ (forall p,
        p ∈ fst (frames isqrt canvas100 title_banner 5
                   (init canvas100 [(1 # 2, 1 # 4, 0, 3 # 4)])) ->
        (- 4 <= x p <= width canvas100 + 4) /\ (- 4 <= y p <= height canvas100 + 4)).
Proof.
  split; [q_closed |]. split; [q_closed |].
  intros p Hp.
  apply (network_stays_near_canvas isqrt canvas100 title_banner
           [(1 # 2, 1 # 4, 0, 3 # 4)] 5 p); try q_closed; [| exact Hp].
  repeat constructor; vm_compute; discriminate.
Defined.

End InitExtras.

(** ** More on the colour update *)
Module ColorWaveExtras.
Import ColorWave ColorWaveFacts Molecules Conditions.

Section Update.
Variable setHSL : option Q -> Q -> Q -> RGB.

Lemma color_loop_slot (time ymin yrange : Q) (ps : list Vector3)
    (cs : list RGB) (i : nat) :
  color_loop setHSL time ymin yrange ps cs !! i
  = match ps !! i with
    | Some pos =>
        if decide (i < length cs)%nat
        then Some (vertex_color setHSL time ymin yrange (vy pos))
        else None
    | None => cs !! i
    end.
Proof.
  destruct (color_loop_prefix setHSL time ymin yrange ps (length ps) cs)
    as (Hlen & Hlt & Hge).
  fold (color_loop setHSL time ymin yrange ps cs) in Hlen, Hlt, Hge.
  destruct (ps !! i) as [pos |] eqn:Epos.
  - pose proof (lookup_lt_Some _ _ _ Epos) as Hi.
    destruct (decide (i < length cs)%nat) as [Hc | Hc].
    + apply Hlt; assumption.
    + apply lookup_ge_None. rewrite Hlen. lia.
  - apply Hge. apply lookup_ge_None. exact Epos.
Qed.

(** X11. The colour loop writes exactly the slots that are both a vertex
    and inside the colour array, each with the colour of its own vertex;
    slots past the vertex count keep their colour, and a colour array shorter
    than the vertex count is not extended. *)
Theorem color_loop_slots (time ymin yrange : Q) (ps : list Vector3) (cs : list RGB) :
  length (color_loop setHSL time ymin yrange ps cs) = length cs
  /\ (forall i pos, ps !! i = Some pos -> (i < length cs)%nat ->
        color_loop setHSL time ymin yrange ps cs !! i
        = Some (vertex_color setHSL time ymin yrange (vy pos)))
  /\ (forall i, (length ps <= i)%nat ->
        color_loop setHSL time ymin yrange ps cs !! i = cs !! i).
Proof.
  split; [apply color_loop_length |]. split.
  - intros i pos Hpos Hi. rewrite color_loop_slot, Hpos.
    destruct (decide (i < length cs)%nat); [reflexivity | lia].
  - intros i Hi. rewrite color_loop_slot.
    rewrite (proj2 (lookup_ge_None ps i) Hi). reflexivity.
Qed.

Lemma color_loop_overwrites (t1 t2 ymin yrange : Q) (ps : list Vector3) (cs : list RGB) :
  color_loop setHSL t2 ymin yrange ps (color_loop setHSL t1 ymin yrange ps cs)
  = color_loop setHSL t2 ymin yrange ps cs.
Proof.
  apply list_eq. intros i. rewrite !color_loop_slot, color_loop_length.
  destruct (ps !! i); reflexivity.
Qed.

Lemma update_item_overwrites (t1 t2 : Q) (item : Item) :
  update_item setHSL t2 (fst (fst (update_item setHSL t1 item)))
  = update_item setHSL t2 item.
Proof.
  unfold update_item at 2.
  destruct (color (geometry item)) as [ca |] eqn:Ec.
  - destruct (position (geometry item)) as [ps |] eqn:Ep.
    + cbn [fst]. unfold update_item. cbn [geometry color position array yMin yRange].
      rewrite Ec, Ep, color_loop_overwrites. reflexivity.
    + cbn [fst]. reflexivity.
  - cbn [fst]. reflexivity.
Qed.

(** X12. The colours after an update depend on the time of that update
    only, not on earlier frames: updating at [t1] and then at [t2] gives the
    same meshes, the same log and the same exception as updating at [t2]
    alone. *)
Theorem updateColors_last_frame_wins (t1 t2 : Q) (meshes : list Item) :
  updateColors setHSL t2 (fst (fst (updateColors setHSL t1 meshes)))
  = updateColors setHSL t2 meshes.
Proof.
  induction meshes as [| item rest IH]; [reflexivity |].
  cbn [updateColors].
  pose proof (update_item_overwrites t1 t2 item) as Hitem.
  assert (Hthrow : snd (update_item setHSL t2 item) = snd (update_item setHSL t1 item)).
  { unfold update_item.
    destruct (color (geometry item)); [| reflexivity].
    destruct (position (geometry item)); reflexivity. }
  destruct (update_item setHSL t1 item) as [[item1 logged1] [e1 |]] eqn:E1;
    cbn [fst] in Hitem; cbn [snd] in Hthrow.
  - cbn [fst updateColors]. rewrite Hitem.
    destruct (update_item setHSL t2 item) as [[item2 logged2] e2].
    cbn [snd] in Hthrow. subst e2. reflexivity.
  - destruct (updateColors setHSL t1 rest) as [[rest1 logged1'] e1'] eqn:Erest.
    cbn [fst updateColors] in *. rewrite Hitem.
    destruct (update_item setHSL t2 item) as [[item2 logged2] e2].
    cbn [snd] in Hthrow. subst e2. rewrite IH. reflexivity.
Qed.

Lemma update_item_same_shape (time : Q) (item : Item) :
  same_shape item (fst (fst (update_item setHSL time item))).
Proof.
  unfold update_item, same_shape, same_size.
  destruct (color (geometry item)) as [ca |] eqn:Ec.
  - destruct (position (geometry item)) as [ps |] eqn:Ep; cbn [fst].
    + cbn [geometry position color yMin yRange array].
      rewrite ?Ep, ?color_loop_length. auto.
    + rewrite ?Ec, ?Ep. auto.
  - cbn [fst]. rewrite ?Ec. auto.
Qed.

Lemma same_shape_refl (item : Item) : same_shape item item.
Proof.
  unfold same_shape, same_size. destruct (color (geometry item)); auto.
Qed.

(** X13. An update never adds, removes or reorders meshes, never touches
    positions or the stored extent, and never resizes a colour array or
    creates one, whether it ends normally or by an exception. *)
Theorem updateColors_same_shape (time : Q) (meshes : list Item) :
  Forall2 same_shape meshes (fst (fst (updateColors setHSL time meshes))).
Proof.
  induction meshes as [| item rest IH]; [constructor |].
  cbn [updateColors].
  pose proof (update_item_same_shape time item) as Hitem.
  destruct (update_item setHSL time item) as [[item' logged] [e |]]; cbn [fst] in Hitem.
  - cbn [fst]. constructor; [exact Hitem |].
    clear. induction rest; constructor; [apply same_shape_refl | assumption].
  - destruct (updateColors setHSL time rest) as [[rest' logged'] e'].
    cbn [fst] in *. constructor; assumption.
Qed.

(** X14. The update throws exactly when some mesh has a colour attribute
    but no position attribute; a mesh without colours never makes it throw. *)
Theorem updateColors_throws_iff (time : Q) (meshes : list Item) :
  snd (updateColors setHSL time meshes) = None <-> Forall updatable meshes.
Proof.
  induction meshes as [| item rest IH]; [cbn; split; [constructor | reflexivity] |].
  cbn [updateColors]. unfold update_item.
  destruct (color (geometry item)) as [ca |] eqn:Ec.
  - destruct (position (geometry item)) as [ps |] eqn:Ep.
    + destruct (updateColors setHSL time rest) as [[rest' logged'] e'].
      cbn [snd] in *. rewrite IH. split.
      * intros H. constructor; [left; congruence | exact H].
      * intros H. inversion H; assumption.
    + cbn [snd]. split; [discriminate |].
      intros H. inversion H as [| ? ? [Hp | Hc] _]; congruence.
  - destruct (updateColors setHSL time rest) as [[rest' logged'] e'].
    cbn [snd] in *. rewrite IH. split.
    + intros H. constructor; [right; exact Ec | exact H].
    + intros H. inversion H; assumption.
Qed.

(** X15. When the update ends normally, every colour attribute present is
    flagged for upload, and exactly one warning was logged for each mesh
    without colour attribute. *)
Theorem updateColors_flags_and_warns (time : Q) (meshes : list Item) :
  snd (updateColors setHSL time meshes) = None ->
  Forall flagged (fst (fst (updateColors setHSL time meshes)))
  /\ snd (fst (updateColors setHSL time meshes))
     = replicate (length (uncoloured meshes)) missing_color_warning.
Proof.
  induction meshes as [| item rest IH]; [cbn; split; [constructor | reflexivity] |].
  cbn [updateColors uncoloured List.filter]. unfold update_item.
  fold (uncoloured rest).
  destruct (color (geometry item)) as [ca |] eqn:Ec.
  - destruct (position (geometry item)) as [ps |] eqn:Ep; [| discriminate].
    destruct (updateColors setHSL time rest) as [[rest' logged'] e'].
    cbn [fst snd] in *. intros He. destruct (IH He) as [Hf Hl].
    split; [| exact Hl]. constructor; [reflexivity | exact Hf].
  - destruct (updateColors setHSL time rest) as [[rest' logged'] e'].
    cbn [fst snd] in *. intros He. destruct (IH He) as [Hf Hl].
    split.
    + constructor; [unfold flagged; rewrite Ec; exact I | exact Hf].
    + cbn [app length replicate]. rewrite Hl. reflexivity.
Qed.

End Update.

(** A colour array longer than the vertex list: the fourth slot is kept. *)
Lemma color_loop_slots_witness :
  color_loop hsl_to_rgb 2 0 10 atoms [black; black; black; {| r := 1; g := 1; b := 1 |}]
    !! 3%nat
  = Some {| r := 1; g := 1; b := 1 |}
  /\ color_loop hsl_to_rgb 2 0 10 atoms [black] !! 0%nat
     = Some (vertex_color hsl_to_rgb 2 0 10 0).
Proof.
  split.
  - destruct (color_loop_slots hsl_to_rgb 2 0 10 atoms
                [black; black; black; {| r := 1; g := 1; b := 1 |}]) as (_ & _ & H).
    rewrite H; [reflexivity | cbn [atoms length]; lia].
  - destruct (color_loop_slots hsl_to_rgb 2 0 10 atoms [black]) as (_ & H & _).
    apply (H 0%nat {| vx := 0; vy := 0; vz := 0 |}); [reflexivity | cbn [length]; lia].
Defined.

Lemma updateColors_flags_and_warns_witness :
  snd (updateColors hsl_to_rgb 2 [bare_mesh; molecule]) = None
  /\ Forall flagged (fst (fst (updateColors hsl_to_rgb 2 [bare_mesh; molecule])))
  /\ snd (fst (updateColors hsl_to_rgb 2 [bare_mesh; molecule]))
     = [missing_color_warning].
Proof.
  split; [reflexivity |].
  destruct (updateColors_flags_and_warns hsl_to_rgb 2 [bare_mesh; molecule])
    as [Hf Hl]; [reflexivity |].
  split; [exact Hf | exact Hl].
Defined.

End ColorWaveExtras.

(** ** Heights, hues and the loaded molecule *)
Module ViewerExtras.
Import ColorWave ColorWaveFacts ColorWaveExtras Molecules Conditions ViewerRun.

Lemma normalizedY_positive_range (ymin yrange y0 : Q) :
  0 < yrange -> normalizedY ymin yrange y0 = Some ((y0 - ymin) / yrange).
Proof.
  intros Hr. unfold normalizedY, JS.div.
  assert (E : JS.gtb yrange 0 = true) by (unfold JS.gtb; apply JSFacts.ltb_lt; exact Hr).
  rewrite E.
  destruct (Qeq_bool yrange 0) eqn:E0; [| reflexivity].
  apply Qeq_bool_iff in E0. lra.
Qed.

(** X16. With a positive extent, the normalized height of a vertex between
    [yMin] and [yMin + yRange] lies in [0,1], is 0 at the bottom and 1 at the
    top, and grows with the height of the vertex. *)
Theorem normalizedY_unit_interval (ymin yrange y1 y2 : Q) :
  0 < yrange ->
  ymin <= y1 -> y1 <= y2 -> y2 <= ymin + yrange ->
  exists h1 h2 h_bottom h_top,
    normalizedY ymin yrange y1 = Some h1
    /\ normalizedY ymin yrange y2 = Some h2
    /\ normalizedY ymin yrange ymin = Some h_bottom
    /\ normalizedY ymin yrange (ymin + yrange) = Some h_top
    /\ 0 <= h1 /\ h1 <= h2 /\ h2 <= 1
    /\ h_bottom == 0 /\ h_top == 1.
Proof.
  intros Hr H1 H12 H2.
  exists ((y1 - ymin) / yrange), ((y2 - ymin) / yrange),
         ((ymin - ymin) / yrange), ((ymin + yrange - ymin) / yrange).
  rewrite !normalizedY_positive_range by exact Hr.
  repeat split.
  - apply Qle_shift_div_l; [exact Hr | lra].
  - apply Qle_shift_div_l; [exact Hr |].
    assert (E : (y1 - ymin) / yrange * yrange == y1 - ymin)
      by (field; lra).
    rewrite E. lra.
  - apply Qle_shift_div_r; [exact Hr | lra].
  - field. lra.
  - field. lra.
Qed.

Lemma normalizedY_unit_interval_witness :
  exists h1 h2, normalizedY 0 10 5 = Some h1 /\ normalizedY 0 10 10 = Some h2
                /\ 0 <= h1 /\ h1 <= h2 /\ h2 <= 1.
Proof.
  destruct (normalizedY_unit_interval 0 10 5 10)
    as (h1 & h2 & _ & _ & E1 & E2 & _ & _ & H0 & H12 & H1 & _);
    [vm_compute; reflexivity | vm_compute; discriminate
    | vm_compute; discriminate | vm_compute; discriminate |].
  exists h1, h2. auto.
Defined.

Lemma normalizedY_bounded (ymin ymax y0 : Q) :
  ymin <= y0 <= ymax ->
  exists h, normalizedY ymin (ymax - ymin) y0 = Some h /\ 0 <= h <= 1.
Proof.
  intros [Hlo Hhi].
  destruct (Qlt_le_dec 0 (ymax - ymin)) as [Hr | Hr].
  - rewrite normalizedY_positive_range by exact Hr. eexists. split; [reflexivity |].
    split.
    + apply Qle_shift_div_l; [exact Hr | lra].
    + apply Qle_shift_div_r; [exact Hr | lra].
  - exists (1 # 2). split; [| split; vm_compute; discriminate].
    unfold normalizedY.
    assert (E : JS.gtb (ymax - ymin) 0 = false)
      by (unfold JS.gtb; apply JSFacts.ltb_ge; exact Hr).
    rewrite E. reflexivity.
Qed.

Section Loaded.
Variable setHSL : option Q -> Q -> Q -> RGB.

(** X17. For a molecule pushed by the success callback with a bounding box
    that bounds its vertices along y, flat molecules included, an update at
    any time [t >= 0] writes in every slot that is a vertex the colour of a
    hue in [0,1). *)
Theorem loaded_molecule_hues (geometryAtoms : BufferGeometry) (ps : list Vector3)
    (ca : ColorAttribute) (lo hi time : Q) (v : Viewer) (info : info_text)
    (i : nat) (pos : Vector3) :
  position geometryAtoms = Some ps ->
  color geometryAtoms = Some ca ->
  bounds_y lo hi ps ->
  0 <= time ->
  ps !! i = Some pos ->
  (i < length (array ca))%nat ->
  exists (item item' : Item) (ca' : ColorAttribute) (hu : Q),
    atomMeshes (fst (fst (on_load geometryAtoms lo hi v info)))
    = atomMeshes v ++ [item]
    /\ update_item setHSL time item = (item', [], None)
    /\ color (geometry item') = Some ca'
    /\ array ca' !! i = Some (setHSL (Some hu) 1 (1 # 2))
    /\ 0 <= hu < 1.
Proof.
  intros Hps Hca Hbox Ht Hpos Hi.
  assert (Hy : lo <= vy pos <= hi).
  { unfold bounds_y in Hbox. rewrite Forall_forall in Hbox. apply Hbox.
    apply list_elem_of_lookup. eauto. }
  destruct (normalizedY_bounded lo hi (vy pos) Hy) as (h & Eh & Hh0 & Hh1).
  destruct (hue_with_nonneg colorWaveFrequency colorWaveSpeed h time)
    as (hu & Ehu & _ & Hbounds);
    try (unfold colorWaveFrequency, colorWaveSpeed; lra).
  unfold on_load. rewrite Hps. cbn [fst atomMeshes].
  eexists. eexists. eexists. exists hu.
  split; [reflexivity |].
  unfold update_item. cbn [geometry yMin yRange]. rewrite Hca, Hps.
  split; [reflexivity |]. cbn [geometry color]. split; [reflexivity |].
  cbn [array]. split; [| exact Hbounds].
  rewrite (color_loop_lookup setHSL time lo (hi - lo) ps (array ca) i pos)
    by assumption.
  unfold vertex_color. rewrite Eh. unfold hue. rewrite Ehu. reflexivity.
Qed.

Lemma on_load_keeps_positions (geometryAtoms : BufferGeometry) (lo hi : Q)
    (v : Viewer) (info : info_text) :
  Forall has_positions (atomMeshes v) ->
  Forall has_positions (atomMeshes (fst (fst (on_load geometryAtoms lo hi v info)))).
Proof.
  intros Hv. unfold on_load.
  destruct (position geometryAtoms) as [ps |] eqn:Ep; cbn [fst atomMeshes];
    [| exact Hv].
  apply Forall_app. split; [exact Hv |].
  constructor; [| constructor]. unfold has_positions. cbn [geometry]. congruence.
Qed.

Lemma updateColors_with_positions (time : Q) (meshes : list Item) :
  Forall has_positions meshes ->
  Forall has_positions (fst (fst (updateColors setHSL time meshes)))
  /\ snd (updateColors setHSL time meshes) = None.
Proof.
  induction 1 as [| item rest Hitem Hrest [IHp IHe]]; [cbn; auto |].
  cbn [updateColors]. unfold update_item. unfold has_positions in Hitem.
  destruct (color (geometry item)) as [ca |] eqn:Ec.
  - destruct (position (geometry item)) as [ps |] eqn:Ep; [| congruence].
    destruct (updateColors setHSL time rest) as [[rest' logged'] e'].
    cbn [fst snd] in *. split; [| exact IHe].
    constructor; [| exact IHp]. unfold has_positions. cbn [geometry position]. congruence.
  - destruct (updateColors setHSL time rest) as [[rest' logged'] e'].
    cbn [fst snd] in *. split; [| exact IHe].
    constructor; [exact Hitem | exact IHp].
Qed.

Lemma animate_keeps_positions (deltaTime elapsedTime : Q) (v : Viewer) :
  Forall has_positions (atomMeshes v) ->
  Forall has_positions
    (atomMeshes (fst (fst (animate setHSL deltaTime elapsedTime v))))
  /\ snd (animate setHSL deltaTime elapsedTime v) = None.
Proof.
  intros Hv. unfold animate.
  destruct (updateColors_with_positions elapsedTime (atomMeshes v) Hv) as [Hp He].
  destruct (updateColors setHSL elapsedTime (atomMeshes v)) as [[ms logged] e].
  cbn [fst snd atomMeshes] in *. auto.
Qed.

(** X18. Every mesh pushed by the success callback has positions, so for a
    viewer filled by that callback alone no frame ever throws, whatever the
    clock readings, and the meshes keep their positions. *)
Theorem frames_never_throw (clock : list (Q * Q)) (v : Viewer) :
  Forall has_positions (atomMeshes v) ->
  snd (run_frames setHSL clock v) = []
  /\ Forall has_positions (atomMeshes (fst (fst (run_frames setHSL clock v))))
  /\ (forall geometryAtoms lo hi info,
        Forall has_positions
          (atomMeshes (fst (fst (on_load geometryAtoms lo hi v info))))).
Proof.
  intros Hv. split; [| split].
  - revert v Hv. induction clock as [| [dt t] rest IH]; intros v Hv; [reflexivity |].
    cbn [run_frames].
    destruct (animate_keeps_positions dt t v Hv) as [Hv' He].
    destruct (animate setHSL dt t v) as [[v' logged] e]. cbn [fst snd] in *.
    subst e. specialize (IH v' Hv').
    destruct (run_frames setHSL rest v') as [[v'' logged'] es]. exact IH.
  - revert v Hv. induction clock as [| [dt t] rest IH]; intros v Hv; [exact Hv |].
    cbn [run_frames].
    destruct (animate_keeps_positions dt t v Hv) as [Hv' He].
    destruct (animate setHSL dt t v) as [[v' logged] e]. cbn [fst snd] in *.
    specialize (IH v' Hv').
    destruct (run_frames setHSL rest v') as [[v'' logged'] es]. exact IH.
  - intros. apply on_load_keeps_positions. exact Hv.
Qed.

(** X19. The rotation of the molecule group after a run of frames is the
    initial one plus 0.1 rad per second of the deltas of the clock, whether
    or not a frame threw; with non-negative deltas it never decreases. *)
Theorem rotation_accumulates (clock : list (Q * Q)) (v : Viewer) :
  rotation_y (fst (fst (run_frames setHSL clock v)))
  == rotation_y v + rotationSpeed * elapsed clock
  /\ (Forall (fun reading => 0 <= fst reading) clock ->
      rotation_y v <= rotation_y (fst (fst (run_frames setHSL clock v)))).
Proof.
  assert (H : forall clock v,
            rotation_y (fst (fst (run_frames setHSL clock v)))
            == rotation_y v + rotationSpeed * elapsed clock).
  { clear clock v. induction clock as [| [dt t] rest IH]; intros v.
    - cbn [run_frames fst elapsed foldr]. ring.
    - cbn [run_frames elapsed foldr fst].
      assert (Hrot : rotation_y (fst (fst (animate setHSL dt t v)))
                     = rotation_y v + rotationSpeed * dt).
      { unfold animate.
        destruct (updateColors setHSL t (atomMeshes v)) as [[ms logged] e].
        reflexivity. }
      destruct (animate setHSL dt t v) as [[v' logged] e]. cbn [fst] in Hrot.
      specialize (IH v').
      destruct (run_frames setHSL rest v') as [[v'' logged'] es].
      cbn [fst] in *. rewrite IH, Hrot. fold (elapsed rest). ring. }
  split; [apply H |].
  intros Hpos. rewrite H.
  assert (Hsum : 0 <= elapsed clock).
  { induction Hpos as [| [dt t] rest Hdt _ IH]; [cbn; lra |].
    cbn [elapsed foldr fst] in *. fold (elapsed rest). lra. }
  unfold rotationSpeed.
  assert (E : (1 # 10) * elapsed clock == elapsed clock * (1 # 10)) by ring.
  lra.
Qed.

End Loaded.

Lemma rotation_accumulates_witness :
  Forall (fun reading : Q * Q => 0 <= fst reading) [(1 # 60, 1 # 60); (1 # 30, 1 # 20)]
  /\ 0 <= rotation_y
            (fst (fst (run_frames hsl_to_rgb [(1 # 60, 1 # 60); (1 # 30, 1 # 20)]
                         {| rotation_y := 0; atomMeshes := [bare_mesh] |}))).
Proof.
  assert (H : Forall (fun reading : Q * Q => 0 <= fst reading)
                [(1 # 60, 1 # 60); (1 # 30, 1 # 20)]).
  { repeat constructor; vm_compute; discriminate. }
  split; [exact H |].
  destruct (rotation_accumulates hsl_to_rgb [(1 # 60, 1 # 60); (1 # 30, 1 # 20)]
              {| rotation_y := 0; atomMeshes := [bare_mesh] |}) as [_ Hmono].
  apply Hmono, H.
Defined.

Lemma loaded_molecule_hues_witness :
  bounds_y 0 10 atoms
  /\ exists (item' : Item) (ca' : ColorAttribute) (hu : Q),
       color (geometry item') = Some ca'
       /\ array ca' !! 2%nat = Some (hsl_to_rgb (Some hu) 1 (1 # 2))
       /\ 0 <= hu < 1.
Proof.
  assert (Hb : bounds_y 0 10 atoms).
  { repeat constructor; vm_compute; discriminate. }
  split; [exact Hb |].
  destruct (loaded_molecule_hues hsl_to_rgb (geometry molecule) atoms
              {| array := [black; black; black]; needsUpdate := false |}
              0 10 3 {| rotation_y := 0; atomMeshes := [] |} LoadError
              2%nat {| vx := 0; vy := 10; vz := 2 |})
    as (item & item' & ca' & hu & _ & _ & Hca & Hslot & Hhu);
    [ reflexivity | reflexivity | exact Hb | vm_compute; discriminate
    | reflexivity | cbn [array length]; lia | ].
  exists item', ca', hu. auto.
Defined.

Lemma frames_never_throw_witness :
  Forall has_positions [molecule]
  /\ snd (run_frames hsl_to_rgb [(1 # 60, 1 # 60); (1 # 60, 1 # 30)]
            {| rotation_y := 0; atomMeshes := [molecule] |}) = [].
Proof.
  assert (H : Forall has_positions [molecule]).
  { repeat constructor. unfold has_positions. cbn. discriminate. }
  split; [exact H |].
  apply (frames_never_throw hsl_to_rgb [(1 # 60, 1 # 60); (1 # 60, 1 # 30)]
           {| rotation_y := 0; atomMeshes := [molecule] |}).
  exact H.
Defined.

End ViewerExtras.

(** ** The hue at any time, the progress text and the instanced spheres *)
Module MoreExtras.
Import ColorWave ColorWaveFacts Conditions ViewerRun InstancedViewer.

Lemma trunc_nonpos (a : Q) : a <= 0 -> JS.trunc a = Qceiling a.
Proof.
  destruct a as [n d]. unfold Qle, JS.trunc, Qceiling, Qfloor, Qopp. simpl.
  intros H.
  replace n with (- - n)%Z at 1 by lia.
  rewrite Z.quot_opp_l by lia. f_equal.
  apply Z.quot_div_nonneg; lia.
Qed.

(** The remainder by 1 is always finite, lies strictly between -1 and 1 and
    has the sign of the dividend. *)
Lemma rem_one_any (a : Q) :
  exists q, JS.rem a 1 = Some q /\ - 1 < q < 1
            /\ (0 <= a -> 0 <= q) /\ (a <= 0 -> q <= 0).
Proof.
  unfold JS.rem. change (Qeq_bool 1 0) with false. cbv iota.
  assert (E : a / 1 == a) by (unfold Qdiv; change (/ 1) with 1; ring).
  eexists. split; [reflexivity |].
  destruct (Qlt_le_dec a 0) as [Hneg | Hpos].
  - assert (Ht : JS.trunc (a / 1) = Qceiling a).
    { rewrite trunc_nonpos by (rewrite E; lra). apply Qceiling_comp. exact E. }
    rewrite Ht.
    pose proof (Qle_ceiling a) as Hlo. pose proof (Qceiling_lt a) as Hhi.
    unfold Zminus in Hhi. rewrite inject_Z_plus in Hhi.
    change (inject_Z (Z.opp 1)) with (- 1) in Hhi.
    repeat split; intros; lra.
  - assert (Ht : JS.trunc (a / 1) = Qfloor a).
    { rewrite JSFacts.trunc_nonneg by (rewrite E; exact Hpos).
      apply Qfloor_comp. exact E. }
    rewrite Ht.
    pose proof (Qfloor_le a) as Hlo. pose proof (Qlt_floor a) as Hhi.
    rewrite inject_Z_plus in Hhi. change (inject_Z 1) with 1 in Hhi.
    assert (Hz : a <= 0 -> a == 0) by (intros; lra).
    repeat split; intros; try lra.
    specialize (Hz H).
    assert (Ef : Qfloor a = 0%Z) by (rewrite (Qfloor_comp _ _ Hz); reflexivity).
    rewrite Ef. change (inject_Z 0) with 0. lra.
Qed.

(** X20. For a vertex inside the stored extent, or with a degenerate extent,
    the hue handed to [setHSL] is a finite number strictly between -1 and 1
    at every time, a negative one included, and is not negative when the time
    is not: for such a vertex the update never produces a NaN hue. *)
Theorem hue_never_nan (ymin yrange y0 time : Q) :
  yrange <= 0 \/ ymin <= y0 <= ymin + yrange ->
  exists q, hue (normalizedY ymin yrange y0) time = Some q
            /\ - 1 < q < 1
            /\ (0 <= time -> 0 <= q).
Proof.
  intros Hin.
  assert (Hh : exists h, normalizedY ymin yrange y0 = Some h /\ 0 <= h <= 1).
  { destruct (Qlt_le_dec 0 yrange) as [Hr | Hr].
    - destruct Hin as [Hin | [Hlo Hhi]]; [lra |].
      rewrite ViewerExtras.normalizedY_positive_range by exact Hr.
      eexists. split; [reflexivity |]. split.
      + apply Qle_shift_div_l; [exact Hr | lra].
      + apply Qle_shift_div_r; [exact Hr | lra].
    - exists (1 # 2). split; [| split; vm_compute; discriminate].
      unfold normalizedY.
      assert (E : JS.gtb yrange 0 = false)
        by (unfold JS.gtb; apply JSFacts.ltb_ge; exact Hr).
      rewrite E. reflexivity. }
  destruct Hh as (h & -> & Hh0 & Hh1).
  unfold hue, hue_with.
  destruct (rem_one_any (h * colorWaveFrequency + time * colorWaveSpeed))
    as (q & Eq & Hq & Hpos & _).
  exists q. split; [exact Eq |]. split; [exact Hq |].
  intros Ht. apply Hpos. unfold colorWaveFrequency, colorWaveSpeed. lra.
Qed.

Lemma hue_never_nan_witness :
  0 <= 5 <= 0 + 10
  /\ exists q, hue (normalizedY 0 10 5) (- 3) = Some q /\ - 1 < q < 1.
Proof.
  assert (H : 0 <= 5 <= 0 + 10) by (split; vm_compute; discriminate).
  split; [exact H |].
  destruct (hue_never_nan 0 10 5 (- 3)) as (q & Eq & Hq & _); [right; exact H |].
  exists q. auto.
Defined.

(** X21. The progress callback changes the text only when the length is
    computable; for [0 <= loaded <= total] with [total > 0] it shows a whole
    percentage between 0 and 100, and 100 when everything is loaded. *)
Theorem progress_percent (loaded total : Q) (info : info_text) :
  0 <= loaded <= total ->
  0 < total ->
  on_progress false loaded total info = info
  /\ exists n, on_progress true loaded total info = Loading (Some n)
               /\ (0 <= n <= 100)%Z
               /\ (loaded == total -> n = 100%Z).
Proof.
  intros [H0 H1] Ht. split; [reflexivity |].
  unfold on_progress, percentComplete, JS.div.
  destruct (Qeq_bool total 0) eqn:E0; [apply Qeq_bool_iff in E0; lra |].
  eexists. split; [reflexivity |]. unfold round.
  assert (Hlo : 0 <= loaded / total) by (apply Qle_shift_div_l; [exact Ht | lra]).
  assert (Hhi : loaded / total <= 1) by (apply Qle_shift_div_r; [exact Ht | lra]).
  split; [split |].
  - apply (Qfloor_resp_le 0). lra.
  - apply (Qfloor_resp_le _ (100 + (1 # 2))). lra.
  - intros Heq.
    assert (E : loaded / total * 100 + (1 # 2) == 100 + (1 # 2)).
    { assert (E1 : loaded / total == 1) by (rewrite Heq; field; lra).
      rewrite E1. reflexivity. }
    rewrite (Qfloor_comp _ _ E). reflexivity.
Qed.

Lemma progress_percent_witness :
  0 <= 1 <= 3 /\ 0 < 3
  /\ exists n, on_progress true 1 3 LoadError = Loading (Some n)
               /\ (0 <= n <= 100)%Z.
Proof.
  split; [split; vm_compute; discriminate |]. split; [vm_compute; reflexivity |].
  destruct (progress_percent 1 3 LoadError) as (_ & n & Hn & Hb & _);
    [split; vm_compute; discriminate | vm_compute; reflexivity |].
  exists n. auto.
Defined.

Section Instances.
Variable atomPositions : list Vector3.
Variable atomColors : list RGB.

Lemma fill_upto (n : nat) :
  (n <= length atomPositions)%nat ->
  length (instanceMatrix
            (foldl (set_instance atomPositions atomColors)
               (new_mesh (length atomPositions)) (seq 0 n)))
  = length atomPositions
  /\ length (instanceColor
               (foldl (set_instance atomPositions atomColors)
                  (new_mesh (length atomPositions)) (seq 0 n)))
     = length atomPositions
  /\ (forall i, (i < n)%nat ->
        instanceMatrix
          (foldl (set_instance atomPositions atomColors)
             (new_mesh (length atomPositions)) (seq 0 n)) !! i
        = atomPositions !! i
        /\ instanceColor
             (foldl (set_instance atomPositions atomColors)
                (new_mesh (length atomPositions)) (seq 0 n)) !! i
           = Some (atomColors !! i)).
Proof.
  induction n as [| n IH]; intros Hn.
  - cbn [seq foldl new_mesh instanceMatrix instanceColor].
    rewrite !length_replicate. repeat split; intros; lia.
  - destruct IH as (Hlm & Hlc & Hslots); [lia |].
    rewrite seq_S, foldl_app. cbn [foldl Nat.add].
    set (m := foldl (set_instance atomPositions atomColors)
                (new_mesh (length atomPositions)) (seq 0 n)) in *.
    unfold set_instance.
    destruct (atomPositions !! n) as [pos |] eqn:Epos;
      [| apply lookup_ge_None in Epos; lia].
    cbn [instanceMatrix instanceColor]. rewrite !length_insert.
    split; [exact Hlm |]. split; [exact Hlc |].
    intros i Hi. destruct (Nat.eq_dec i n) as [-> | Hne].
    + rewrite !list_lookup_insert_eq by lia. auto.
    + rewrite !list_lookup_insert_ne by auto. apply Hslots. lia.
Qed.

(** X22. The instanced mesh gets one sphere per atom: after the loop the
    translations of the instances are the atom positions, in order, and
    instance [i] has the colour of atom [i]; with one colour per atom the
    instance colours are the atom colours. *)
Theorem instances_copy_atoms :
  instanceMatrix (fill_instances atomPositions atomColors) = atomPositions
  /\ length (instanceColor (fill_instances atomPositions atomColors))
     = length atomPositions
  /\ (forall i, (i < length atomPositions)%nat ->
        instanceColor (fill_instances atomPositions atomColors) !! i
        = Some (atomColors !! i))
  /\ (length atomColors = length atomPositions ->
      instanceColor (fill_instances atomPositions atomColors) = Some <$> atomColors).
Proof.
  destruct (fill_upto (length atomPositions)) as (Hlm & Hlc & Hslots); [lia |].
  fold (fill_instances atomPositions atomColors) in Hlm, Hlc, Hslots.
  split.
  { apply list_eq. intros i.
    destruct (decide (i < length atomPositions)%nat) as [Hi | Hi].
    - apply Hslots, Hi.
    - rewrite (proj2 (lookup_ge_None _ i)) by lia.
      rewrite (proj2 (lookup_ge_None atomPositions i)) by lia. reflexivity. }
  split; [exact Hlc |]. split; [intros i Hi; apply Hslots, Hi |].
  intros Hlen. apply list_eq. intros i. rewrite list_lookup_fmap.
  destruct (decide (i < length atomPositions)%nat) as [Hi | Hi].
  - destruct (Hslots i Hi) as [_ ->].
    destruct (atomColors !! i) eqn:E; [reflexivity |].
    apply lookup_ge_None in E. lia.
  - rewrite (proj2 (lookup_ge_None _ i)) by lia.
    rewrite (proj2 (lookup_ge_None atomColors i)) by lia. reflexivity.
Qed.

End Instances.

Lemma instances_copy_atoms_witness :
  length [Molecules.black; Molecules.black; Molecules.black] = length Molecules.atoms
  /\ instanceMatrix
       (fill_instances Molecules.atoms
          [Molecules.black; Molecules.black; Molecules.black])
     = Molecules.atoms
  /\ instanceColor
       (fill_instances Molecules.atoms
          [Molecules.black; Molecules.black; Molecules.black])
     = Some <$> [Molecules.black; Molecules.black; Molecules.black].
Proof.
  split; [reflexivity |].
  destruct (instances_copy_atoms Molecules.atoms
              [Molecules.black; Molecules.black; Molecules.black])
    as (Hm & _ & _ & Hc).
  split; [exact Hm | apply Hc; reflexivity].
Defined.

End MoreExtras.

(** ** The obstacle tests, in the claim's own terms *)
Module ObstacleClaims.
Import Particle ParticleFacts ParticleExtras Geometry Scenes.

Section Obstacle.
Variable canvas : Canvas.
Variable titleBox : DOMRect.

Lemma colliding_overlaps p : colliding titleBox (move p) = true <-> overlaps titleBox p.
Proof.
  unfold colliding, overlaps, moved_x, moved_y, JS.gtb.
  cbn [move x y radius set_position].
  rewrite !andb_true_iff, !JSFacts.ltb_lt. tauto.
Qed.

Lemma near_left_within p : near_left titleBox (move p) = true <-> within_left titleBox p.
Proof.
  unfold near_left, within_left, moved_x. cbn [move x radius set_position].
  apply JSFacts.ltb_lt.
Qed.

Lemma near_right_within p : near_right titleBox (move p) = true <-> within_right titleBox p.
Proof.
  unfold near_right, within_right, moved_x, JS.gtb. cbn [move x radius set_position].
  apply JSFacts.ltb_lt.
Qed.

Lemma near_top_within p : near_top titleBox (move p) = true <-> within_top titleBox p.
Proof.
  unfold near_top, within_top, moved_y. cbn [move y radius set_position].
  apply JSFacts.ltb_lt.
Qed.

Lemma near_bottom_within p : near_bottom titleBox (move p) = true <-> within_bottom titleBox p.
Proof.
  unfold near_bottom, within_bottom, moved_y, JS.gtb. cbn [move y radius set_position].
  apply JSFacts.ltb_lt.
Qed.

Lemma reflect_false (b : bool) (P : Prop) : (b = true <-> P) -> ~ P -> b = false.
Proof. intros H HP. destruct b; [| reflexivity]. exfalso. apply HP, H. reflexivity. Qed.

(** The call ends with the obstacle tests, run on the particle left by the
    wall tests with its collision flag set; they read the moved position. *)
Lemma update_obstacle_phase p :
  update canvas titleBox p
  = obstacle_bounce titleBox
      (set_collision (wall_bounce canvas (move p)) (colliding titleBox (move p)))
  /\ (forall c,
        near_left titleBox (set_collision (wall_bounce canvas (move p)) c)
        = near_left titleBox (move p)
        /\ near_right titleBox (set_collision (wall_bounce canvas (move p)) c)
           = near_right titleBox (move p)
        /\ near_top titleBox (set_collision (wall_bounce canvas (move p)) c)
           = near_top titleBox (move p)
        /\ near_bottom titleBox (set_collision (wall_bounce canvas (move p)) c)
           = near_bottom titleBox (move p)).
Proof.
  split.
  - unfold update, detect_collision. rewrite colliding_wall_bounce.
    destruct (colliding titleBox (move p)); reflexivity.
  - intros c. unfold near_left, near_right, near_top, near_bottom.
    cbn [x y radius set_collision].
    destruct (wall_bounce_position canvas (move p)) as (-> & -> & ->). auto.
Qed.

Lemma wall_bounce_after_walls p :
  after_walls canvas p (directionX (wall_bounce canvas (move p)))
    (directionY (wall_bounce canvas (move p))).
Proof.
  unfold after_walls, wall_x_fires, wall_y_fires, moved_x, moved_y.
  rewrite wall_bounce_directionX, wall_bounce_directionY.
  cbn [move x y radius directionX directionY set_position].
  repeat split.
  - intros H. rewrite wall_test_true by exact H. reflexivity.
  - intros H. rewrite wall_test_false; [reflexivity | |].
    + apply Qnot_le_lt. intros H1. apply H. left. exact H1.
    + apply Qnot_le_lt. intros H1. apply H. right. exact H1.
  - intros H. rewrite wall_test_true by exact H. reflexivity.
  - intros H. rewrite wall_test_false; [reflexivity | |].
    + apply Qnot_le_lt. intros H1. apply H. left. exact H1.
    + apply Qnot_le_lt. intros H1. apply H. right. exact H1.
Qed.

(** C6, amended. In one call of [update], let [(wx, wy)] be the velocity
    left by the wall tests of that call (a component is the opposite of the
    one before the call when its wall test fired, the same otherwise).  When
    the moved particle overlaps the title's rectangle and is within the 10 px
    margin of an edge, the component perpendicular to that edge ends as the
    opposite of [wx] (left, right) or [wy] (top, bottom) and the other one is
    kept; the margins are tried in the order left, right, top, bottom and
    only the first one that matches acts; with no overlap, or no margin
    matched, the velocity ends as [(wx, wy)]. *)
Theorem obstacle_edges_in_order (p : t) :
  exists wx wy,
    after_walls canvas p wx wy
    /\ (overlaps titleBox p -> within_left titleBox p ->
        directionX (update canvas titleBox p) = - wx
        /\ directionY (update canvas titleBox p) = wy)
    /\ (overlaps titleBox p -> ~ within_left titleBox p ->
        within_right titleBox p ->
        directionX (update canvas titleBox p) = - wx
        /\ directionY (update canvas titleBox p) = wy)
    /\ (overlaps titleBox p -> ~ within_left titleBox p ->
        ~ within_right titleBox p -> within_top titleBox p ->
        directionX (update canvas titleBox p) = wx
        /\ directionY (update canvas titleBox p) = - wy)
    /\ (overlaps titleBox p -> ~ within_left titleBox p ->
        ~ within_right titleBox p -> ~ within_top titleBox p ->
        within_bottom titleBox p ->
        directionX (update canvas titleBox p) = wx
        /\ directionY (update canvas titleBox p) = - wy)
    /\ (overlaps titleBox p -> ~ within_left titleBox p ->
        ~ within_right titleBox p -> ~ within_top titleBox p ->
        ~ within_bottom titleBox p ->
        directionX (update canvas titleBox p) = wx
        /\ directionY (update canvas titleBox p) = wy)
    /\ (~ overlaps titleBox p ->
        directionX (update canvas titleBox p) = wx
        /\ directionY (update canvas titleBox p) = wy).
Proof.
  exists (directionX (wall_bounce canvas (move p))),
         (directionY (wall_bounce canvas (move p))).
  split; [apply wall_bounce_after_walls |].
  destruct (update_obstacle_phase p) as [-> Hnear].
  unfold obstacle_bounce. cbn [collision set_collision].
  destruct (Hnear (colliding titleBox (move p))) as (-> & -> & -> & ->).
  pose proof (colliding_overlaps p) as Ho.
  pose proof (near_left_within p) as HL.
  pose proof (near_right_within p) as HR.
  pose proof (near_top_within p) as HT.
  pose proof (near_bottom_within p) as HB.
  repeat split; intros;
    repeat match goal with
    | H : overlaps _ _ |- _ => apply Ho in H; rewrite H
    | H : ~ overlaps _ _ |- _ => apply (reflect_false _ _ Ho) in H; rewrite H
    | H : within_left _ _ |- _ => apply HL in H; rewrite H
    | H : ~ within_left _ _ |- _ => apply (reflect_false _ _ HL) in H; rewrite H
    | H : within_right _ _ |- _ => apply HR in H; rewrite H
    | H : ~ within_right _ _ |- _ => apply (reflect_false _ _ HR) in H; rewrite H
    | H : within_top _ _ |- _ => apply HT in H; rewrite H
    | H : ~ within_top _ _ |- _ => apply (reflect_false _ _ HT) in H; rewrite H
    | H : within_bottom _ _ |- _ => apply HB in H; rewrite H
    | H : ~ within_bottom _ _ |- _ => apply (reflect_false _ _ HB) in H; rewrite H
    end;
    reflexivity.
Qed.

End Obstacle.

(** C6, as stated, fails. The banner particle overlaps the title within its
    right margin (and not its left one), yet its horizontal velocity after
    the call is the one before it, not the opposite: the wall test of the
    same call had already negated it. *)
Lemma banner_particle_not_negated :
  overlaps title_banner banner_particle
  /\ ~ within_left title_banner banner_particle
  /\ within_right title_banner banner_particle
  /\ directionX (update canvas100 title_banner banner_particle)
     == directionX banner_particle
  /\ ~ directionX (update canvas100 title_banner banner_particle)
       == - directionX banner_particle.
Proof.
  unfold overlaps, within_left, within_right, moved_x, moved_y.
  repeat split; vm_compute; try reflexivity; try discriminate.
Qed.

(** At [margin_particle] no wall test fires and both the left and the top
    margin match: only the horizontal component is negated. *)
Lemma obstacle_edges_in_order_witness :
  overlaps title_centre margin_particle
  /\ within_left title_centre margin_particle
  /\ within_top title_centre margin_particle
  /\ ~ wall_x_fires canvas100 margin_particle
  /\ directionX (update canvas100 title_centre margin_particle)
     = - directionX margin_particle
  /\ directionY (update canvas100 title_centre margin_particle)
     = directionY margin_particle.
Proof.
  assert (Ho : overlaps title_centre margin_particle)
    by (unfold overlaps, moved_x, moved_y; repeat split; vm_compute; reflexivity).
  assert (Hl : within_left title_centre margin_particle) by (vm_compute; reflexivity).
  assert (Ht : within_top title_centre margin_particle) by (vm_compute; reflexivity).
  assert (Hx : ~ wall_x_fires canvas100 margin_particle).
  { intros [H | H]; vm_compute in H; apply H; reflexivity. }
  assert (Hy : ~ wall_y_fires canvas100 margin_particle).
  { intros [H | H]; vm_compute in H; apply H; reflexivity. }
  split; [exact Ho |]. split; [exact Hl |]. split; [exact Ht |]. split; [exact Hx |].
  destruct (obstacle_edges_in_order canvas100 title_centre margin_particle)
    as (wx & wy & (_ & Hwx & _ & Hwy) & Hleft & _).
  destruct (Hleft Ho Hl) as [-> ->].
  rewrite (Hwx Hx), (Hwy Hy). split; reflexivity.
Defined.

End ObstacleClaims.
